(** * keras_rnn_generation: padding, training loop and generation loop

    A shallow embedding of the notebook [keras_rnn_generation.ipynb]:
    the padded story matrix (cell 10), the input/target slicing (cell 12),
    the layer stack of [create_rnn] (cell 14), the training loop (cell 18),
    the reverse lexicon (cell 24) and the generation loop (cell 28).

    Token ids are [Z]; lengths, widths and positions are [nat].  Keras and
    numpy are libraries the notebook calls: their numeric kernels (GRU cell,
    softmax, optimiser) are the fields of a record a model is built over,
    and floating-point values are abstracted by exact rationals. *)

From Stdlib Require Import ZArith QArith Lia Lqa Ascii.
From stdpp Require Import base option list gmap strings.

Local Open Scope Z_scope.

(** ** Cell 10: the padded matrix *)

Module Padding.

(** Modelled from the spec: [keras.preprocessing.sequence.pad_sequences]
    is library code absent from the notebook; cell 10 calls it with the
    defaults, which left-pad ("prepend the row with zeros", cell 9) with
    id 0 and keep the last [maxlen] entries of a longer sequence. *)
Definition pad_row (maxlen : nat) (s : list Z) : list Z :=
  let trunc := drop (length s - maxlen) s in
  replicate (maxlen - length trunc) 0 ++ trunc.

Definition pad_sequences (sequences : list (list Z)) (maxlen : nat)
  : list (list Z) :=
  map (pad_row maxlen) sequences.

(** [maxlen = max([len(story) for story in train_idxs])] *)
Definition maxlen (train_idxs : list (list Z)) : nat :=
  foldr Nat.max 0%nat (map length train_idxs).

(** [train_idxs = pad_sequences(train_idxs, maxlen=maxlen)] *)
Definition padded_matrix (train_idxs : list (list Z)) : list (list Z) :=
  pad_sequences train_idxs (maxlen train_idxs).

(** Modelled from the spec: stripping the leading zeros of a row, the
    inverse the spec pairs with left-padding; the notebook has no such
    function. *)
Fixpoint strip_leading_zeros (r : list Z) : list Z :=
  match r with
  | [] => []
  | x :: r' => if x =? 0 then strip_leading_zeros r' else r
  end.

End Padding.

(** ** Cell 12: model input and output *)

Module Slicing.

(** Python's normalisation of a slice bound [i] for a sequence of length
    [len]: negative bounds count from the end, and the result is clamped
    to [0, len]. *)
Definition slice_bound (i : Z) (len : nat) : nat :=
  if i <? 0 then Z.to_nat (Z.max 0 (Z.of_nat len + i))
  else Z.to_nat (Z.min i (Z.of_nat len)).

(** [r[:stop]] *)
Definition slice_to {A} (stop : Z) (r : list A) : list A :=
  take (slice_bound stop (length r)) r.

(** [r[start:]] *)
Definition slice_from {A} (start : Z) (r : list A) : list A :=
  drop (slice_bound start (length r)) r.

(** [train_x = train_idxs[:, :-1]] *)
Definition train_x (train_idxs : list (list Z)) : list (list Z) :=
  map (slice_to (-1)) train_idxs.

(** [train_y = train_idxs[:, 1:]] *)
Definition train_y (train_idxs : list (list Z)) : list (list Z) :=
  map (slice_from 1) train_idxs.

End Slicing.

(** ** Values the libraries compute *)

(** Exceptions the notebook's cells can raise. *)
Inductive exn : Set := KeyError | NameError | IndexError | ValueError.

(** A computation that returns or raises. *)
Inductive result (A : Type) : Type :=
| Ok (a : A)
| Raise (e : exn).
Arguments Ok {A} a.
Arguments Raise {A} e.

#[export] Instance result_ret : MRet result := fun A a => Ok a.

#[export] Instance result_bind : MBind result := fun A B k r =>
  match r with
  | Ok a => k a
  | Raise e => Raise e
  end.

(** A floating-point value as far as the loops can tell values apart: a
    finite number (an exact rational here) or one of the non-finite ones. *)
Inductive float : Set :=
| Fin (q : Q)
| PInf
| NInf
| NaN.

Module Float.

Definition is_finite (x : float) : bool :=
  match x with Fin _ => true | _ => false end.

Definition add (x y : float) : float :=
  match x, y with
  | NaN, _ | _, NaN => NaN
  | PInf, NInf | NInf, PInf => NaN
  | PInf, _ | _, PInf => PInf
  | NInf, _ | _, NInf => NInf
  | Fin a, Fin b => Fin (a + b)%Q
  end.

(** multiplication by a 0/1 mask entry; [inf * 0] is [nan] *)
Definition mul_mask (x : float) (m : bool) : float :=
  if m then x else
    match x with Fin _ => Fin 0%Q | _ => NaN end.

(** division by a count; [0/0] is [nan] *)
Definition div_count (x : float) (n : nat) : float :=
  match n with
  | O => match x with
         | Fin q => if Qeq_bool q 0%Q then NaN
                    else if Qle_bool 0%Q q then PInf else NInf
         | _ => x
         end
  | S _ => match x with
           | Fin q => Fin (q / inject_Z (Z.of_nat n))%Q
           | _ => x
           end
  end.

Definition sum (xs : list float) : float := foldl add (Fin 0%Q) xs.

(** [numpy.mean] of a one-dimensional array *)
Definition mean (xs : list float) : float := div_count (sum xs) (length xs).

End Float.

(** ** Cell 14: the network built by [create_rnn] *)

Module Model.

(** The numeric kernels behind the layers; Keras supplies them, the
    notebook only stacks them.  [weights] holds every trainable array
    together with the optimiser's slots. *)
Record kernels : Type := {
  weights : Type;
  emb : Type;
  hid : Type;
  (* initialiser for the given lexicon size and layer widths *)
  initial_weights : nat -> nat -> nat -> weights;
  (* Layer 1, [Embedding]: the vector of a word index *)
  embedding : weights -> Z -> emb;
  (* Layer 2, [GRU]: one step from the previous state and an input *)
  gru1 : weights -> hid -> emb -> hid;
  (* Layer 3, [GRU] over the first layer's outputs *)
  gru2 : weights -> hid -> hid -> hid;
  (* Layer 4, [Dense(lexicon_size + 1, activation="softmax")] *)
  dense_softmax : weights -> hid -> list Q;
  (* the all-zero state of a recurrent layer *)
  zeros : hid;
  (* [sparse_categorical_crossentropy] at one position *)
  xent : list Q -> Z -> float;
  (* one [adam] update from a batch, given the states it started from *)
  adam : weights -> list (hid * hid) -> list (list Z) -> list (list Z)
         -> weights
}.

Section Network.
Variable K : kernels.

Local Abbreviation state := (hid K * hid K)%type.

(** A compiled model: its configured input shape, its parameters and,
    because both GRU layers are [stateful=True], one pair of hidden
    states per batch row. *)
Record rnn : Type := {
  batch_size : nat;
  n_timesteps : nat;
  params : weights K;
  states : list state
}.

Definition zero_states (n : nat) : list state :=
  replicate n (zeros K, zeros K).

Definition create_rnn
    (lexicon_size n_embedding_nodes n_hidden_nodes : nat)
    (batch_size n_timesteps : nat) : rnn :=
  {| batch_size := batch_size;
     n_timesteps := n_timesteps;
     params := initial_weights K lexicon_size n_embedding_nodes
                 n_hidden_nodes;
     states := zero_states batch_size |}.

(** [rnn.load_weights] / [rnn.save_weights] *)
Definition load_weights (m : rnn) (w : weights K) : rnn :=
  {| batch_size := batch_size m; n_timesteps := n_timesteps m;
     params := w; states := states m |}.

Definition save_weights (m : rnn) : weights K := params m.

(** [rnn.reset_states()] *)
Definition reset_states (m : rnn) : rnn :=
  {| batch_size := batch_size m; n_timesteps := n_timesteps m;
     params := params m; states := zero_states (batch_size m) |}.

(** [mask_zero=True]: the mask the embedding layer hands down the
    stack, false where the input index is 0. *)
Definition compute_mask (x : list Z) : list bool :=
  map (fun v => negb (v =? 0)) x.

(** One word through both recurrent layers.  At a masked position the
    cells are skipped and the states carried over. *)
Definition timestep (w : weights K) (st : state) (x : Z) : state :=
  if x =? 0 then st
  else
    let h1 := gru1 K w st.1 (embedding K w x) in
    (h1, gru2 K w st.2 h1).

(** One row through the stack ([return_sequences=True]): the final
    states and a distribution per position. *)
Fixpoint run_row (w : weights K) (st : state) (xs : list Z)
  : state * list (list Q) :=
  match xs with
  | [] => (st, [])
  | x :: xs' =>
      let st' := timestep w st x in
      let '(st_end, outs) := run_row w st' xs' in
      (st_end, dense_softmax K w st'.2 :: outs)
  end.

Definition forward (w : weights K) (sts : list state)
    (X : list (list Z)) : list (state * list (list Q)) :=
  zip_with (run_row w) sts X.

(** The input must have the shape the model was compiled for. *)
Definition shape_ok (m : rnn) (X : list (list Z)) : bool :=
  (length X =? batch_size m)%nat
  && forallb (fun r => (length r =? n_timesteps m)%nat) X.

(** [rnn.predict_on_batch(X)]: the distributions, and the model with
    its states advanced. *)
Definition predict_on_batch (m : rnn) (X : list (list Z))
  : result (rnn * list (list (list Q))) :=
  if shape_ok m X then
    let r := forward (params m) (states m) X in
    Ok ({| batch_size := batch_size m; n_timesteps := n_timesteps m;
           params := params m; states := map fst r |},
        map snd r)
  else Raise ValueError.

(** The per-position losses of one row, each multiplied by its mask
    entry. *)
Definition masked_scores (outs : list (list Q)) (x y : list Z)
  : list float :=
  zip_with (fun s m => Float.mul_mask s m)
           (zip_with (xent K) outs y) (compute_mask x).

(** The number of positions of a row whose loss term is kept. *)
Definition n_terms (x : list Z) : nat :=
  length (filter (fun b => b = true) (compute_mask x)).

(** The loss of a batch: the masked scores summed and divided by the
    number of unmasked positions. *)
Definition masked_loss (outs : list (list (list Q)))
    (X Y : list (list Z)) : float :=
  let scores :=
    concat (zip_with (fun o xy => masked_scores o xy.1 xy.2)
                     outs (zip X Y)) in
  Float.div_count (Float.sum scores)
                  (foldr Nat.add 0%nat (map n_terms X)).

(** [rnn.train_on_batch(X, Y)]: forward pass from the current states,
    loss, one optimiser step. *)
Definition train_on_batch (m : rnn) (X Y : list (list Z))
  : result (rnn * float) :=
  if shape_ok m X && shape_ok m Y then
    let r := forward (params m) (states m) X in
    Ok ({| batch_size := batch_size m; n_timesteps := n_timesteps m;
           params := adam K (params m) (states m) X Y;
           states := map fst r |},
        masked_loss (map snd r) X Y)
  else Raise ValueError.

End Network.

Arguments batch_size {K} _.
Arguments n_timesteps {K} _.
Arguments params {K} _.
Arguments states {K} _.

End Model.

(** ** Cell 18: the training loop *)

Module Training.
Import Model.

(** [range(0, n, step)] *)
Definition range_step (n step : nat) : result (list nat) :=
  match step with
  | O => Raise ValueError
  | S _ => Ok ((fun k => (k * step)%nat) <$> seq 0 ((n + step - 1) / step))
  end.

(** [a[i:i+k]] *)
Definition rows {A} (a : list A) (i k : nat) : list A :=
  take k (drop i a).

Section Loop.
Variable K : kernels.
Variables train_x train_y : list (list Z).
Variable batch_size : nat.

(** The body of [for batch_idx in range(...)], over the indices still
    to visit; [losses] is the list appended to so far. *)
Fixpoint batch_loop (m : rnn K) (idxs : list nat) (losses : list float)
  : result (rnn K * list float) :=
  match idxs with
  | [] => Ok (m, losses)
  | batch_idx :: rest =>
      let batch_x := rows train_x batch_idx batch_size in
      let batch_y := rows train_y batch_idx batch_size in
      '(m1, loss) ← train_on_batch K m batch_x batch_y;
      let losses := losses ++ [loss] in
      let m2 := reset_states K m1 in
      batch_loop m2 rest losses
  end.

(** What one epoch prints and saves. *)
Record report : Type := {
  mean_loss : float;
  saved : weights K
}.

(** One pass of [for epoch in range(n_epochs)]. *)
Definition epoch (n_stories : nat) (m : rnn K)
  : result (rnn K * report) :=
  idxs ← range_step n_stories batch_size;
  '(m', losses) ← batch_loop m idxs [];
  Ok (m', {| mean_loss := Float.mean losses;
             saved := save_weights K m' |}).

Fixpoint train (n_epochs n_stories : nat) (m : rnn K)
    (reports : list report) : result (rnn K * list report) :=
  match n_epochs with
  | O => Ok (m, reports)
  | S n =>
      '(m', r) ← epoch n_stories m;
      train n n_stories m' (reports ++ [r])
  end.

End Loop.

End Training.

(** ** Cells 24 and 28: decoding and the generation loop *)

Module Generation.
Import Model.

(** [{index: word for word, index in tokenizer.word_index.items()}] *)
Definition lexicon_lookup (word_index : list (string * Z))
  : gmap Z string :=
  foldl (fun d wi => <[wi.2 := wi.1]> d) ∅ word_index.

Definition eos_tokens : list string := ["."; "?"; "!"]%string.

(** [d[k]] on a dictionary *)
Definition getitem (d : gmap Z string) (k : Z) : result string :=
  match d !! k with
  | Some w => Ok w
  | None => Raise KeyError
  end.

(** [word[-1]] *)
Fixpoint last_char (word : string) : result string :=
  match word with
  | EmptyString => Raise IndexError
  | String c EmptyString => Ok (String c EmptyString)
  | String _ rest => last_char rest
  end.

(** [x in eos_tokens] *)
Definition is_eos (c : string) : bool :=
  bool_decide (c ∈ eos_tokens).

(** [[lexicon_lookup[word] for word in generated_ending]] *)
Fixpoint lookup_all (d : gmap Z string) (ids : list Z)
  : result (list string) :=
  match ids with
  | [] => Ok []
  | i :: rest =>
      w ← getitem d i;
      ws ← lookup_all d rest;
      Ok (w :: ws)
  end.

(** [" ".join([lexicon_lookup[word] for word in generated_ending])] *)
Definition decode (d : gmap Z string) (ids : list Z) : result string :=
  ws ← lookup_all d ids;
  Ok (String.concat " " ws).

(** *** [numpy.random.choice(a=len(p), p=p)]

    The random source is injected as the uniform variate [u] that one
    draw consumes; the index returned is the first whose cumulative
    probability exceeds [u]. *)
Definition valid_distribution (p : list Q) : bool :=
  forallb (Qle_bool 0) p && Qeq_bool (foldr Qplus 0%Q p) 1.

Fixpoint searchsorted (cdf : Q) (p : list Q) (u : Q) : Z :=
  match p with
  | [] => 0
  | x :: p' =>
      if Qle_bool (cdf + x) u then 1 + searchsorted (cdf + x)%Q p' u
      else 0
  end.

Definition random_choice (u : Q) (p : list Q) : result Z :=
  if valid_distribution p then Ok (searchsorted 0 p u)
  else Raise ValueError.

(** Probability 1 at index [k] and 0 elsewhere, for the indices
    [a, a + n). *)
Definition mass_from (a n k : nat) : list Q :=
  (fun i => if (i =? k)%nat then 1%Q else 0%Q) <$> seq a n.

(** The distribution with all its mass on index [k], over [n] indices. *)
Definition point_mass (n k : nat) : list Q := mass_from 0 n k.

Section Loop.
Variable K : kernels.
Variable lexicon : gmap Z string.

(** The variables of cell 28 that a story's iteration reads or leaves
    behind.  [p_next_word] and [next_word] are notebook-level names:
    unbound until first assigned, and keeping their last value from
    one story to the next. *)
Record vars : Type := {
  generation_rnn : rnn K;
  p_next_word : option (list Q);
  next_word : option Z;
  generated_ending : list Z
}.

(** Cell 26: the trained network rebuilt with [batch_size = 1] and
    [n_timesteps = 1], and the trained weights loaded into it. *)
Definition duplicate (lexicon_size : nat) (trained : weights K) : rnn K :=
  load_weights K (create_rnn K lexicon_size 300 500 1 1) trained.

(** [generation_rnn.predict_on_batch(x)[0,-1]] for a single index *)
Definition predict_word (m : rnn K) (x : Z)
  : result (rnn K * list Q) :=
  '(m', out) ← predict_on_batch K m [[x]];
  match out !! 0%nat with
  | Some row =>
      match last row with
      | Some p => Ok (m', p)
      | None => Raise IndexError
      end
  | None => Raise IndexError
  end.

(** The shape cell 26 gives the generation model: one row, one timestep,
    and so one pair of hidden states. *)
Definition single_step (m : rnn K) : Prop :=
  batch_size m = 1%nat /\ n_timesteps m = 1%nat
  /\ length (states m) = 1%nat.

(** [for step_idx in range(story_idxs.shape[-1])]: load the story. *)
Fixpoint read_story (s : vars) (story_idxs : list Z) : result vars :=
  match story_idxs with
  | [] => Ok s
  | x :: rest =>
      '(m, p) ← predict_word (generation_rnn s) x;
      read_story {| generation_rnn := m; p_next_word := Some p;
                    next_word := next_word s;
                    generated_ending := generated_ending s |} rest
  end.

(** [not generated_ending or
     lexicon_lookup[next_word][-1] not in eos_tokens] *)
Definition continue (s : vars) : result bool :=
  match generated_ending s with
  | [] => Ok true
  | _ :: _ =>
      match next_word s with
      | None => Raise NameError
      | Some w =>
          word ← getitem lexicon w;
          c ← last_char word;
          Ok (negb (is_eos c))
      end
  end.

(** The body of the [while]: one sampling step, consuming the
    variate [u]. *)
Definition sample_step (u : Q) (s : vars) : result vars :=
  match p_next_word s with
  | None => Raise NameError
  | Some p =>
      w ← random_choice u p;
      '(m, p') ← predict_word (generation_rnn s) w;
      Ok {| generation_rnn := m; p_next_word := Some p';
            next_word := Some w;
            generated_ending := generated_ending s ++ [w] |}
  end.

(** How far the [while] got on a finite supply of variates. *)
Inductive progress : Type :=
| Exited (s : vars) (rest : list Q)
| Crashed (e : exn)
| Spinning (s : vars).

Fixpoint sampling_loop (draws : list Q) (s : vars) : progress :=
  match continue s with
  | Raise e => Crashed e
  | Ok false => Exited s draws
  | Ok true =>
      match draws with
      | [] => Spinning s
      | u :: draws' =>
          match sample_step u s with
          | Raise e => Crashed e
          | Ok s' => sampling_loop draws' s'
          end
      end
  end.

(** The number of sampling steps a run of the loop has performed. *)
Definition steps_taken (r : progress) : option nat :=
  match r with
  | Exited s _ | Spinning s => Some (length (generated_ending s))
  | Crashed _ => None
  end.

(** One iteration of the outer [for]: what it returns, raises, or
    that its [while] is still running. *)
Inductive outcome : Type :=
| Generated (s : vars) (ending : list Z) (text : string)
            (rest : list Q)
| Failed (e : exn)
| Unfinished (s : vars).

(** [generated_ending = []] *)
Definition begin_story (s : vars) : vars :=
  {| generation_rnn := generation_rnn s;
     p_next_word := p_next_word s;
     next_word := next_word s;
     generated_ending := [] |}.

(** [generation_rnn.reset_states()] *)
Definition end_story (s : vars) : vars :=
  {| generation_rnn := reset_states K (generation_rnn s);
     p_next_word := p_next_word s;
     next_word := next_word s;
     generated_ending := generated_ending s |}.

Definition generate (s : vars) (story_idxs : list Z)
    (draws : list Q) : outcome :=
  match read_story (begin_story s) story_idxs with
  | Raise e => Failed e
  | Ok s1 =>
      match sampling_loop draws s1 with
      | Crashed e => Failed e
      | Spinning s2 => Unfinished s2
      | Exited s2 rest =>
          match decode lexicon (generated_ending s2) with
          | Raise e => Failed e
          | Ok text =>
              Generated (end_story s2) (generated_ending s2) text rest
          end
      end
  end.

(** How cell 28 ended: every story done, an exception, or a [while]
    still running when the variates ran out. *)
Inductive cell_end : Set :=
| Completed
| Aborted (e : exn)
| Starved.

(** The outer [for] over the held-out stories: the endings printed,
    in order, and how the cell ended. *)
Fixpoint generate_all (s : vars) (stories : list (list Z))
    (draws : list Q) : list (list Z * string) * cell_end :=
  match stories with
  | [] => ([], Completed)
  | story_idxs :: rest =>
      match generate s story_idxs draws with
      | Failed e => ([], Aborted e)
      | Unfinished _ => ([], Starved)
      | Generated s' ending text draws' =>
          let '(out, e) := generate_all s' rest draws' in
          ((ending, text) :: out, e)
      end
  end.

(** The state cell 28 starts from: the model of cell 26, and neither
    [p_next_word] nor [next_word] assigned yet. *)
Definition initial (m : rnn K) : vars :=
  {| generation_rnn := m; p_next_word := None; next_word := None;
     generated_ending := [] |}.

End Loop.

Arguments generation_rnn {K} _.
Arguments p_next_word {K} _.
Arguments next_word {K} _.
Arguments generated_ending {K} _.

End Generation.

(** ** Test doubles *)

Module Doubles.
Import Model.

(** A network that remembers the last word it was fed (0 before any) and
    puts all the mass of its output on index [next h], over [n] indices;
    [loss] is its per-position loss and its weights never change. *)
Definition table (n : nat) (next : Z -> nat)
    (loss : list Q -> Z -> float) : kernels :=
  {| weights := unit; emb := Z; hid := Z;
     initial_weights := fun _ _ _ => tt;
     embedding := fun _ x => x;
     gru1 := fun _ _ e => e;
     gru2 := fun _ _ h1 => h1;
     dense_softmax := fun _ h => Generation.point_mass n (next h);
     zeros := 0;
     xent := loss;
     adam := fun w _ _ _ => w |}.

Definition unit_loss (p : list Q) (y : Z) : float := Fin 1.

(** The scenario's vocabulary: [{the:1, cat:2, sat:3, ".":4}]. *)
Definition word_index : list (string * Z) :=
  [("the", 1); ("cat", 2); ("sat", 3); (".", 4)]%string.

(** The model forced to emit id 4 at every step. *)
Definition always_stop : kernels := table 5 (fun _ => 4%nat) unit_loss.

(** A model that never emits an end-of-sentence word. *)
Definition never_stop : kernels := table 5 (fun _ => 1%nat) unit_loss.

(** The same vocabulary with a second end-of-sentence word. *)
Definition word_index2 : list (string * Z) :=
  word_index ++ [("!"%string, 5)].

(** A model whose next word depends on the word it was last fed: from
    the zero state it emits ".", after "the" or "sat" it emits ".",
    after "cat" it emits "!", after "." it emits "the" and after "!" it
    emits "sat". *)
Definition successor (h : Z) : nat :=
  if h =? 2 then 5%nat
  else if h =? 4 then 1%nat
  else if h =? 5 then 3%nat
  else 4%nat.

Definition echo : kernels := table 6 successor unit_loss.

(** A model that puts all its mass on the padding index 0. *)
Definition pads : kernels := table 5 (fun _ => 0%nat) unit_loss.

(** A loss that tells positions apart: the target id itself. *)
Definition target_loss (p : list Q) (y : Z) : float := Fin (inject_Z y).

Definition graded : kernels := table 6 (fun _ => 4%nat) target_loss.

(** A loss that is not a number whenever the target is [bad]. *)
Definition nan_on (bad : Z) (p : list Q) (y : Z) : float :=
  if y =? bad then NaN else Fin 1.

Definition diverging : kernels := table 5 (fun _ => 4%nat) (nan_on 3).

(** The generation model of cell 26 over a double, with the double's
    initial weights as the trained ones. *)
Definition loaded (K : kernels) : rnn K :=
  Generation.duplicate K 4 (initial_weights K 4 300 500).

End Doubles.

(** ** Cell 22: the held-out stories *)

Module Heldout.

(** [stories[-10:]] *)
Definition last_ten {A} (stories : list A) : list A :=
  Slicing.slice_from (-10) stories.

(** [story[-1]] *)
Definition final_sentence (story : list string) : result string :=
  match last story with
  | Some sentence => Ok sentence
  | None => Raise IndexError
  end.

(** [[story[-1] for story in stories]] *)
Fixpoint final_sentences (stories : list (list string))
  : result (list string) :=
  match stories with
  | [] => Ok []
  | story :: rest =>
      e ← final_sentence story;
      es ← final_sentences rest;
      Ok (e :: es)
  end.

(** [heldout_endings = [story[-1] for story in heldout_stories[-10:]]] *)
Definition heldout_endings (heldout_stories : list (list string))
  : result (list string) :=
  final_sentences (last_ten heldout_stories).

(** [story[:-1]], the sentences the ending is generated from *)
Definition given_sentences (story : list string) : list string :=
  Slicing.slice_to (-1) story.

(** [heldout_stories = [" ".join(story[:-1])
                        for story in heldout_stories[-10:]]] *)
Definition heldout_texts (heldout_stories : list (list string))
  : list string :=
  map (fun story => String.concat " " (given_sentences story))
      (last_ten heldout_stories).

(** The two assignments in the order the cell makes them. *)
Definition split (heldout_stories : list (list string))
  : result (list string * list string) :=
  endings ← heldout_endings heldout_stories;
  Ok (endings, heldout_texts heldout_stories).

End Heldout.

(** ** Cells 10 to 18 in sequence *)

Module Pipeline.
Import Model.

(** Cells 10 and 12: the width, the input matrix and the target matrix.
    [max] of an empty list raises. *)
Definition prepare (train_idxs : list (list Z))
  : result (nat * list (list Z) * list (list Z)) :=
  match train_idxs with
  | [] => Raise ValueError
  | _ :: _ =>
      let padded := Padding.padded_matrix train_idxs in
      Ok (Padding.maxlen train_idxs,
          Slicing.train_x padded, Slicing.train_y padded)
  end.

(** Cell 16: [create_rnn(lexicon_size=len(tokenizer.word_index),
    n_embedding_nodes=300, n_hidden_nodes=500, batch_size=batch_size,
    n_timesteps=maxlen - 1)].  When no story has a word [maxlen - 1] is
    -1, which is no number of timesteps: Keras builds no model
    for it. *)
Definition initialize (K : kernels) (word_index : list (string * Z))
    (batch_size maxlen : nat) : option (rnn K) :=
  match maxlen with
  | O => None
  | S n_timesteps =>
      Some (create_rnn K (length word_index) 300 500 batch_size
                       n_timesteps)
  end.

(** The indices the embedding layer of [create_rnn(lexicon_size, ...)]
    has a row for: [input_dim = lexicon_size + 1]. *)
Definition in_vocabulary (lexicon_size : nat) (i : Z) : Prop :=
  0 <= i <= Z.of_nat lexicon_size.

End Pipeline.

(** ** The terms of the training loss *)

Module Terms.
Import Model.

(** Two floating values are the same value: for finite ones, the same
    rational number. *)
Definition same (x y : float) : Prop :=
  match x, y with
  | Fin a, Fin b => (a == b)%Q
  | PInf, PInf | NInf, NInf | NaN, NaN => True
  | _, _ => False
  end.

Section Kept.
Variable K : kernels.

(** The per-position losses of one row at the positions whose input
    index is not 0, in order. *)
Definition kept_scores (outs : list (list Q)) (x y : list Z)
  : list float :=
  (filter (fun sm => sm.2 = true)
          (zip (zip_with (xent K) outs y) (compute_mask x))).*1.

(** Those of every row of a batch. *)
Definition batch_terms (outs : list (list (list Q)))
    (X Y : list (list Z)) : list float :=
  concat (zip_with (fun o xy => kept_scores o xy.1 xy.2) outs (zip X Y)).

End Kept.

End Terms.

(** ** What the stop test of cell 28 reads off a word *)

Module Ending.

(** [lexicon_lookup[w][-1] in eos_tokens] evaluates, without raising, to
    [b]. *)
Definition ends_sentence (lexicon : gmap Z string) (w : Z) (b : bool)
  : Prop :=
  exists word c,
    lexicon !! w = Some word
    /\ Generation.last_char word = Ok c
    /\ Generation.is_eos c = b.

End Ending.

(** * Properties *)

(** ** Padding and slicing *)

Section PaddingFacts.
Import Padding Slicing.

Lemma pad_row_fits (W : nat) (s : list Z) :
  (length s <= W)%nat ->
  pad_row W s = replicate (W - length s) 0 ++ s.
Proof.
  intros Hle. unfold pad_row.
  replace (length s - W)%nat with 0%nat by lia.
  by rewrite drop_0.
Qed.

Lemma strip_zeros_prefix (n : nat) (s : list Z) :
  strip_leading_zeros (replicate n 0 ++ s) = strip_leading_zeros s.
Proof. induction n as [|n IH]; [done | exact IH]. Qed.

Lemma strip_positive (s : list Z) :
  Forall (fun x => 0 < x) s -> strip_leading_zeros s = s.
Proof.
  destruct s as [|x s]; [done |].
  intros Hpos. apply Forall_cons_1 in Hpos as [Hx _]. simpl.
  destruct (Z.eqb_spec x 0); [lia | done].
Qed.

Lemma slice_to_last {A} (r : list A) :
  slice_to (-1) r = take (length r - 1) r.
Proof.
  unfold slice_to, slice_bound. simpl. f_equal. lia.
Qed.

Lemma slice_from_first {A} (r : list A) :
  slice_from 1 r = drop 1 r.
Proof.
  unfold slice_from, slice_bound. simpl.
  destruct r as [|a r]; [done |].
  f_equal. rewrite length_cons. lia.
Qed.

Lemma pad_row_zero_positions (s : list Z) (W i : nat) :
  Forall (fun x => 0 < x) s ->
  (length s <= W)%nat ->
  (i < W)%nat ->
  pad_row W s !! i = Some 0 <-> (i < W - length s)%nat.
Proof.
  intros Hpos Hle Hi. rewrite (pad_row_fits W s Hle). split.
  - intros Hz.
    destruct (decide (i < W - length s)%nat) as [|Hge]; [done |].
    rewrite lookup_app_r in Hz by (rewrite length_replicate; lia).
    apply list_elem_of_lookup_2 in Hz.
    rewrite Forall_forall in Hpos. specialize (Hpos _ Hz). lia.
  - intros Hlt. rewrite lookup_app_l by (rewrite length_replicate; lia).
    by apply lookup_replicate_2.
Qed.

(** In cell 10 the width is the longest story's length, so every story
    fits and none is truncated. *)
Lemma maxlen_fits (train_idxs : list (list Z)) (i : nat) (s : list Z) :
  train_idxs !! i = Some s -> (length s <= maxlen train_idxs)%nat.
Proof.
  revert i. induction train_idxs as [|s' rest IH]; intros i Hi; [done |].
  unfold maxlen in *. simpl. destruct i as [|i]; simpl in Hi.
  - injection Hi as ->. lia.
  - specialize (IH i Hi). lia.
Qed.

Lemma padded_matrix_row (train_idxs : list (list Z)) (i : nat)
    (s : list Z) :
  train_idxs !! i = Some s ->
  padded_matrix train_idxs !! i
  = Some (replicate (maxlen train_idxs - length s) 0 ++ s).
Proof.
  intros Hi. unfold padded_matrix, pad_sequences.
  rewrite list_lookup_fmap, Hi. simpl.
  by rewrite (pad_row_fits _ _ (maxlen_fits _ _ _ Hi)).
Qed.

End PaddingFacts.

Section MaskFacts.
Import Model.

Lemma compute_mask_app (a b : list Z) :
  compute_mask (a ++ b) = compute_mask a ++ compute_mask b.
Proof. unfold compute_mask. apply map_app. Qed.

Lemma n_terms_app (a b : list Z) :
  n_terms (a ++ b) = (n_terms a + n_terms b)%nat.
Proof.
  unfold n_terms. by rewrite compute_mask_app, filter_app, length_app.
Qed.

Lemma n_terms_zeros (n : nat) : n_terms (replicate n 0) = 0%nat.
Proof. induction n as [|n IH]; [done | exact IH]. Qed.

Lemma n_terms_positive (s : list Z) :
  Forall (fun x => 0 < x) s -> n_terms s = length s.
Proof.
  induction 1 as [|x s Hx _ IH]; [done |].
  change (x :: s) with ([x] ++ s). rewrite n_terms_app, IH.
  unfold n_terms. simpl.
  destruct (Z.eqb_spec x 0); [lia | done].
Qed.

Lemma compute_mask_lookup (x : list Z) (t : nat) :
  compute_mask x !! t = (fun v => negb (v =? 0)) <$> (x !! t).
Proof. unfold compute_mask. apply list_lookup_fmap. Qed.

End MaskFacts.

Section PaddingTheorems.
Import Padding Slicing.

(** C6. Left-padding a sequence of positive ids to any width that fits it
    and stripping the leading zeros gives the sequence back; the padded
    row has the requested width, ends in the sequence's last token, and
    holds a zero exactly at its leading [W - L] positions. *)
Theorem padding_round_trip (s : list Z) (W : nat) :
  Forall (fun x => 0 < x) s ->
  (length s <= W)%nat ->
  strip_leading_zeros (pad_row W s) = s
  /\ length (pad_row W s) = W
  /\ (forall x, last s = Some x -> last (pad_row W s) = Some x)
  /\ (forall i, (i < W)%nat ->
        pad_row W s !! i = Some 0 <-> (i < W - length s)%nat).
Proof.
  intros Hpos Hle. split; [| split; [| split]].
  - rewrite (pad_row_fits W s Hle), strip_zeros_prefix.
    by apply strip_positive.
  - rewrite (pad_row_fits W s Hle), length_app, length_replicate. lia.
  - intros x Hx. rewrite (pad_row_fits W s Hle), last_app, Hx. done.
  - intros i Hi. by apply pad_row_zero_positions.
Qed.

Lemma padding_round_trip_witness :
  Padding.strip_leading_zeros (Padding.pad_row 5 [7; 3; 9]) = [7; 3; 9]
  /\ Padding.pad_row 5 [7; 3; 9] = [0; 0; 7; 3; 9].
Proof.
  split; [| reflexivity].
  apply (padding_round_trip [7; 3; 9] 5).
  - repeat constructor.
  - simpl. lia.
Defined.

(** C7. For a row of width [W >= 1] of the padded matrix, the model input
    is the row without its last column and the target is the row without
    its first: both have length [W - 1], input[t] is column [t], target[t]
    is column [t + 1], and so target[t] = input[t + 1] wherever the input
    has a position [t + 1]. *)
Theorem input_target_offset (M : list (list Z)) (i : nat) (r : list Z) :
  M !! i = Some r ->
  (0 < length r)%nat ->
  exists x y,
    train_x M !! i = Some x /\ train_y M !! i = Some y
    /\ Z.of_nat (length x) = Z.of_nat (length r) - 1
    /\ Z.of_nat (length y) = Z.of_nat (length r) - 1
    /\ (forall t, (t < length r - 1)%nat ->
          x !! t = r !! t /\ y !! t = r !! S t)
    /\ (forall t, (S t < length x)%nat -> y !! t = x !! S t).
Proof.
  intros Hr Hlen.
  exists (slice_to (-1) r), (slice_from 1 r).
  unfold train_x, train_y.
  rewrite !list_lookup_fmap, Hr. simpl.
  rewrite slice_to_last, slice_from_first.
  rewrite length_take, length_drop.
  repeat split; try lia.
  - by rewrite lookup_take_lt.
  - by rewrite lookup_drop.
  - intros t Ht. rewrite lookup_drop. simpl.
    rewrite lookup_take_lt by lia. done.
Qed.

Lemma input_target_offset_witness :
  exists x y,
    Slicing.train_x [[0; 0; 7; 3; 9]] !! 0%nat = Some x
    /\ Slicing.train_y [[0; 0; 7; 3; 9]] !! 0%nat = Some y
    /\ Z.of_nat (length x) = 4 /\ Z.of_nat (length y) = 4
    /\ (forall t, (t < 4)%nat ->
          x !! t = [0; 0; 7; 3; 9] !! t /\ y !! t = [0; 0; 7; 3; 9] !! S t)
    /\ (forall t, (S t < length x)%nat -> y !! t = x !! S t).
Proof.
  apply (input_target_offset [[0; 0; 7; 3; 9]] 0 [0; 0; 7; 3; 9]).
  - reflexivity.
  - simpl. lia.
Defined.

End PaddingTheorems.


(** ** The training loop *)

Section TrainingFacts.
Import Model Training.
Variable K : kernels.
Variables train_x train_y : list (list Z).
Variable bs : nat.

Lemma train_on_batch_config (m m1 : rnn K) X Y (l : float) :
  train_on_batch K m X Y = Ok (m1, l) ->
  batch_size m1 = batch_size m /\ n_timesteps m1 = n_timesteps m.
Proof.
  unfold train_on_batch.
  destruct (shape_ok K m X && shape_ok K m Y); [| discriminate].
  intros [= <- _]. done.
Qed.

Lemma shape_ok_config (m m' : rnn K) X :
  batch_size m' = batch_size m ->
  n_timesteps m' = n_timesteps m ->
  shape_ok K m' X = shape_ok K m X.
Proof. intros Hb Ht. unfold shape_ok. by rewrite Hb, Ht. Qed.

Lemma batch_loop_cons (m : rnn K) idx rest acc :
  batch_loop K train_x train_y bs m (idx :: rest) acc
  = match train_on_batch K m (rows train_x idx bs) (rows train_y idx bs)
    with
    | Ok (m1, loss) =>
        batch_loop K train_x train_y bs (reset_states K m1) rest
                   (acc ++ [loss])
    | Raise e => Raise e
    end.
Proof.
  simpl. destruct (train_on_batch _ _ _ _) as [[m1 loss]|e]; done.
Qed.

Lemma batch_loop_app (a b : list nat) :
  forall (m m_end : rnn K) acc ls,
    batch_loop K train_x train_y bs m (a ++ b) acc = Ok (m_end, ls) ->
    exists m1 l1,
      batch_loop K train_x train_y bs m a acc = Ok (m1, l1)
      /\ batch_loop K train_x train_y bs m1 b l1 = Ok (m_end, ls).
Proof.
  induction a as [|idx a IH]; intros m m_end acc ls Hrun.
  - exists m, acc. done.
  - rewrite <- app_comm_cons, batch_loop_cons in Hrun.
    rewrite batch_loop_cons.
    destruct (train_on_batch _ _ _ _) as [[m1 loss]|e]; [| discriminate].
    by apply IH.
Qed.

(** What the inner loop keeps: the configured shape; the zero state once
    any batch has been processed; one loss appended per batch. *)
Lemma batch_loop_invariant (idxs : list nat) :
  forall (m m_end : rnn K) acc ls,
    batch_loop K train_x train_y bs m idxs acc = Ok (m_end, ls) ->
    batch_size m_end = batch_size m
    /\ n_timesteps m_end = n_timesteps m
    /\ (idxs <> [] -> states m_end = zero_states K (batch_size m_end))
    /\ exists new, ls = acc ++ new /\ length new = length idxs.
Proof.
  induction idxs as [|idx rest IH]; intros m m_end acc ls Hrun.
  - injection Hrun as <- <-. repeat split; [done |].
    exists []. by rewrite app_nil_r.
  - rewrite batch_loop_cons in Hrun.
    destruct (train_on_batch _ _ _ _) as [[m1 loss]|e] eqn:Hstep;
      [| discriminate].
    apply train_on_batch_config in Hstep as [Hb Ht].
    destruct (IH _ _ _ _ Hrun) as (Hb' & Ht' & Hst & new & -> & Hlen).
    simpl in Hb', Ht'.
    repeat split; [congruence | congruence | |].
    + intros _. destruct rest as [|idx' rest'].
      * injection Hrun as <- _. done.
      * by apply Hst.
    + exists (loss :: new). rewrite <- app_assoc. simpl.
      split; [done | by rewrite Hlen].
Qed.

Lemma reset_fresh (m : rnn K) (ls ne nh : nat) :
  states m = zero_states K (batch_size m) ->
  m = load_weights K (create_rnn K ls ne nh (batch_size m) (n_timesteps m))
                   (params m).
Proof. destruct m as [b t w st]. simpl. by intros ->. Qed.

End TrainingFacts.

Section FloatFacts.

Lemma add_nonfinite_l (x y : float) :
  Float.is_finite x = false -> Float.is_finite (Float.add x y) = false.
Proof. destruct x, y; simpl; congruence. Qed.

Lemma add_nonfinite_r (x y : float) :
  Float.is_finite y = false -> Float.is_finite (Float.add x y) = false.
Proof. destruct x, y; simpl; congruence. Qed.

Lemma foldl_add_nonfinite_acc (xs : list float) :
  forall acc, Float.is_finite acc = false ->
    Float.is_finite (foldl Float.add acc xs) = false.
Proof.
  induction xs as [|x xs IH]; intros acc Hacc; [done |].
  simpl. apply IH. by apply add_nonfinite_l.
Qed.

Lemma sum_nonfinite (xs : list float) :
  Exists (fun l => Float.is_finite l = false) xs ->
  Float.is_finite (Float.sum xs) = false.
Proof.
  intros Hex. unfold Float.sum. generalize (Fin 0%Q).
  induction Hex as [x xs Hx | x xs _ IH]; intros acc; simpl.
  - apply foldl_add_nonfinite_acc. by apply add_nonfinite_r.
  - apply IH.
Qed.

Lemma div_count_nonfinite (x : float) (n : nat) :
  Float.is_finite x = false ->
  Float.is_finite (Float.div_count x n) = false.
Proof. destruct x, n; simpl; congruence. Qed.

Lemma mean_nonfinite (xs : list float) :
  Exists (fun l => Float.is_finite l = false) xs ->
  Float.is_finite (Float.mean xs) = false.
Proof.
  intros Hex. unfold Float.mean.
  by apply div_count_nonfinite, sum_nonfinite.
Qed.

End FloatFacts.

Section TrainingTheorems.
Import Model Training.

(** C3. In the training loop the hidden state is reset after every
    mini-batch's optimisation step and before the next mini-batch: a
    mini-batch that follows another is processed from the zero state, and
    its training step gives what it gives on a freshly created model
    carrying the current parameters, so no hidden state of an earlier
    mini-batch conditions its predictions. *)
Theorem batch_starts_from_zero_state (K : kernels)
    (x y : list (list Z)) (bs : nat) (m m_end : rnn K)
    (pre : list nat) (idx : nat) (post : list nat) (losses : list float) :
  pre <> [] ->
  batch_loop K x y bs m (pre ++ idx :: post) [] = Ok (m_end, losses) ->
  exists m_b l_pre m1 loss,
    batch_loop K x y bs m pre [] = Ok (m_b, l_pre)
    /\ states m_b = zero_states K (batch_size m_b)
    /\ train_on_batch K m_b (rows x idx bs) (rows y idx bs) = Ok (m1, loss)
    /\ losses !! length pre = Some loss
    /\ states (reset_states K m1) = zero_states K (batch_size m1)
    /\ forall ls ne nh,
         train_on_batch K
           (load_weights K
              (create_rnn K ls ne nh (batch_size m) (n_timesteps m))
              (params m_b))
           (rows x idx bs) (rows y idx bs)
         = Ok (m1, loss).
Proof.
  intros Hpre Hrun.
  apply batch_loop_app in Hrun as (m_b & l_pre & Hfirst & Hrest).
  destruct (batch_loop_invariant K x y bs pre _ _ _ _ Hfirst)
    as (Hb & Ht & Hst & new0 & Hl0 & Hlen0).
  specialize (Hst Hpre). simpl in Hl0. subst l_pre.
  rewrite batch_loop_cons in Hrest.
  destruct (train_on_batch K m_b _ _) as [[m1 loss]|e] eqn:Hstep;
    [| discriminate].
  destruct (batch_loop_invariant K x y bs post _ _ _ _ Hrest)
    as (_ & _ & _ & new & -> & _).
  exists m_b, new0, m1, loss.
  repeat split; try done.
  - rewrite <- app_assoc. rewrite lookup_app_r by lia.
    rewrite Hlen0, Nat.sub_diag. done.
  - intros ls ne nh. rewrite <- Hb, <- Ht.
    by rewrite <- (reset_fresh K m_b ls ne nh Hst).
Qed.

Lemma batch_starts_from_zero_state_witness :
  exists m_b l_pre m1 loss,
    batch_loop Doubles.echo
      (Slicing.train_x [[1; 2; 4]; [3; 1; 5]])
      (Slicing.train_y [[1; 2; 4]; [3; 1; 5]]) 1
      (create_rnn Doubles.echo 5 300 500 1 2) [0%nat] [] = Ok (m_b, l_pre)
    /\ states m_b = zero_states Doubles.echo (batch_size m_b)
    /\ train_on_batch Doubles.echo m_b
         (rows (Slicing.train_x [[1; 2; 4]; [3; 1; 5]]) 1 1)
         (rows (Slicing.train_y [[1; 2; 4]; [3; 1; 5]]) 1 1)
       = Ok (m1, loss).
Proof.
  destruct (batch_starts_from_zero_state Doubles.echo
              (Slicing.train_x [[1; 2; 4]; [3; 1; 5]])
              (Slicing.train_y [[1; 2; 4]; [3; 1; 5]]) 1
              (create_rnn Doubles.echo 5 300 500 1 2)
              (reset_states Doubles.echo
                 (create_rnn Doubles.echo 5 300 500 1 2))
              [0%nat] 1%nat []
              [Fin ((0 + 1 + 1) / inject_Z 2)%Q;
               Fin ((0 + 1 + 1) / inject_Z 2)%Q])
    as (m_b & l_pre & m1 & loss & H1 & H2 & H3 & _).
  - discriminate.
  - vm_compute. reflexivity.
  - exists m_b, l_pre, m1, loss. auto.
Defined.

Lemma batch_loop_succeeds (K : kernels) (x y : list (list Z)) (bs : nat)
    (m0 : rnn K) (idxs : list nat) :
  Forall (fun idx =>
            shape_ok K m0 (rows x idx bs) && shape_ok K m0 (rows y idx bs)
            = true) idxs ->
  forall (m : rnn K) acc,
    batch_size m = batch_size m0 ->
    n_timesteps m = n_timesteps m0 ->
    exists m_end ls, batch_loop K x y bs m idxs acc = Ok (m_end, ls).
Proof.
  induction 1 as [|idx rest Hidx _ IH]; intros m acc Hb Ht.
  - by exists m, acc.
  - rewrite batch_loop_cons.
    destruct (train_on_batch K m _ _) as [[m1 loss]|e] eqn:Hstep.
    + apply train_on_batch_config in Hstep as [Hb1 Ht1].
      apply IH; simpl; congruence.
    + unfold train_on_batch in Hstep.
      rewrite !(shape_ok_config K m0 m), Hidx in Hstep by done.
      discriminate.
Qed.

(** C5, as stated, fails: when the second of three mini-batches gives a
    loss that is not a number, the loop still processes the third, and the
    epoch reports the mean over all three losses, which is not a number
    either. *)
Lemma nan_loss_does_not_abort_epoch :
  let K := Doubles.diverging in
  let M := [[1; 2; 4]; [1; 3; 4]; [1; 2; 4]] in
  let m := create_rnn K 4 300 500 1 2 in
  (exists m_end l0 l2,
     batch_loop K (Slicing.train_x M) (Slicing.train_y M) 1 m
                [0; 1; 2]%nat []
     = Ok (m_end, [Fin l0; NaN; Fin l2]))
  /\ (exists m_end w,
        epoch K (Slicing.train_x M) (Slicing.train_y M) 1 3 m
        = Ok (m_end, {| mean_loss := NaN; saved := w |})).
Proof.
  intros K M m. split.
  - eexists _, _, _. vm_compute. reflexivity.
  - eexists _, _. vm_compute. reflexivity.
Qed.

(** C5, amended. The training loop never inspects a loss: whenever every
    mini-batch has the shape the model was compiled for, the epoch runs
    through all of them, appends one loss per mini-batch whatever its
    value, and reports their mean; if any of the losses is not finite,
    neither is the reported mean. *)
Theorem nonfinite_loss_is_averaged (K : kernels) (x y : list (list Z))
    (bs n_stories : nat) (m : rnn K) (idxs : list nat) :
  range_step n_stories bs = Ok idxs ->
  Forall (fun idx =>
            shape_ok K m (rows x idx bs) && shape_ok K m (rows y idx bs)
            = true) idxs ->
  exists m_end losses,
    batch_loop K x y bs m idxs [] = Ok (m_end, losses)
    /\ length losses = length idxs
    /\ epoch K x y bs n_stories m
       = Ok (m_end, {| mean_loss := Float.mean losses;
                       saved := save_weights K m_end |})
    /\ (Exists (fun l => Float.is_finite l = false) losses ->
        Float.is_finite (Float.mean losses) = false).
Proof.
  intros Hrange Hshape.
  destruct (batch_loop_succeeds K x y bs m idxs Hshape m [] eq_refl eq_refl)
    as (m_end & losses & Hrun).
  exists m_end, losses.
  destruct (batch_loop_invariant K x y bs idxs _ _ _ _ Hrun)
    as (_ & _ & _ & new & -> & Hlen).
  repeat split; [done | done | | apply mean_nonfinite].
  unfold epoch. rewrite Hrange. simpl. rewrite Hrun. done.
Qed.

Lemma nonfinite_loss_is_averaged_witness :
  exists m_end losses,
    batch_loop Doubles.diverging
      (Slicing.train_x [[1; 2; 4]; [1; 3; 4]; [1; 2; 4]])
      (Slicing.train_y [[1; 2; 4]; [1; 3; 4]; [1; 2; 4]]) 1
      (create_rnn Doubles.diverging 4 300 500 1 2) [0; 1; 2]%nat []
    = Ok (m_end, losses)
    /\ length losses = 3%nat.
Proof.
  destruct (nonfinite_loss_is_averaged Doubles.diverging
              (Slicing.train_x [[1; 2; 4]; [1; 3; 4]; [1; 2; 4]])
              (Slicing.train_y [[1; 2; 4]; [1; 3; 4]; [1; 2; 4]]) 1 3
              (create_rnn Doubles.diverging 4 300 500 1 2) [0; 1; 2]%nat)
    as (m_end & losses & H1 & H2 & _).
  - reflexivity.
  - repeat constructor.
  - exists m_end, losses. auto.
Defined.

(** C8. Predicting on [A], resetting the states and predicting on [B]
    gives for [B] exactly what a freshly created model with the same
    parameters gives: the outputs, and the model left behind, do not
    depend on [A]. *)
Theorem predict_after_reset_is_fresh (K : kernels) (m m1 : rnn K)
    (A B : list (list Z)) (outA : list (list (list Q)))
    (ls ne nh : nat) :
  predict_on_batch K m A = Ok (m1, outA) ->
  predict_on_batch K (reset_states K m1) B
  = predict_on_batch K
      (load_weights K
         (create_rnn K ls ne nh (batch_size m) (n_timesteps m))
         (params m)) B.
Proof.
  unfold predict_on_batch at 1.
  destruct (shape_ok K m A); [| discriminate].
  intros [= <- _]. reflexivity.
Qed.

Lemma predict_after_reset_is_fresh_witness :
  predict_on_batch Doubles.echo
    (reset_states Doubles.echo
       (Build_rnn Doubles.echo 1 1 tt [(1, 1)])) [[2]]
  = predict_on_batch Doubles.echo
      (load_weights Doubles.echo
         (create_rnn Doubles.echo 5 300 500 1 1)
         (params (Doubles.loaded Doubles.echo))) [[2]].
Proof.
  apply (predict_after_reset_is_fresh Doubles.echo
           (Doubles.loaded Doubles.echo) _ [[1]] [[2]]
           [[Generation.point_mass 6 4]] 5 300 500).
  reflexivity.
Defined.

End TrainingTheorems.

(** ** Sampling *)

Section SamplingFacts.
Import Generation.

Lemma mass_from_cons (a n k : nat) :
  mass_from a (S n) k
  = (if (a =? k)%nat then 1%Q else 0%Q) :: mass_from (S a) n k.
Proof. reflexivity. Qed.

Lemma searchsorted_mass (n : nat) :
  forall (p : list Q) (a k : nat) (c u : Q),
    Forall2 Qeq p (mass_from a n k) ->
    (c == 0)%Q -> (0 <= u)%Q -> (u < 1)%Q ->
    (a <= k < a + n)%nat ->
    searchsorted c p u = Z.of_nat (k - a).
Proof.
  induction n as [|n IH]; intros p a k c u Hp Hc Hu0 Hu1 Hk; [lia |].
  rewrite mass_from_cons in Hp.
  apply Forall2_cons_inv_r in Hp as (x & p' & Hx & Hp' & ->).
  simpl. destruct (Nat.eqb_spec a k) as [->|Hne].
  - replace (Qle_bool (c + x) u) with false.
    + f_equal. lia.
    + symmetry. apply not_true_is_false. rewrite Qle_bool_iff. lra.
  - replace (Qle_bool (c + x) u) with true.
    + rewrite (IH p' (S a) k (c + x)%Q u); try done; [lia | lra | lia].
    + symmetry. rewrite Qle_bool_iff. lra.
Qed.

Lemma mass_nonnegative (n : nat) :
  forall (p : list Q) (a k : nat),
    Forall2 Qeq p (mass_from a n k) ->
    forallb (Qle_bool 0) p = true.
Proof.
  induction n as [|n IH]; intros p a k Hp.
  - by apply Forall2_nil_inv_r in Hp as ->.
  - rewrite mass_from_cons in Hp.
    apply Forall2_cons_inv_r in Hp as (x & p' & Hx & Hp' & ->).
    simpl. rewrite (IH p' (S a) k Hp'), andb_true_r.
    rewrite Qle_bool_iff. destruct (a =? k)%nat; lra.
Qed.

Lemma mass_total (n : nat) :
  forall (p : list Q) (a k : nat),
    Forall2 Qeq p (mass_from a n k) ->
    (foldr Qplus 0 p
     == if bool_decide (a <= k < a + n)%nat then 1 else 0)%Q.
Proof.
  induction n as [|n IH]; intros p a k Hp.
  - apply Forall2_nil_inv_r in Hp as ->. simpl.
    rewrite bool_decide_eq_false_2 by lia. reflexivity.
  - rewrite mass_from_cons in Hp.
    apply Forall2_cons_inv_r in Hp as (x & p' & Hx & Hp' & ->).
    simpl. rewrite (IH p' (S a) k Hp'), Hx.
    destruct (Nat.eqb_spec a k) as [->|Hne].
    + rewrite bool_decide_eq_false_2 by lia.
      rewrite bool_decide_eq_true_2 by lia. lra.
    + destruct (decide (a <= k < a + S n)%nat).
      * rewrite !bool_decide_eq_true_2 by lia. lra.
      * rewrite !bool_decide_eq_false_2 by lia. lra.
Qed.

(** Sampling from a distribution with all its mass on [k] gives [k],
    whatever the variate. *)
Lemma random_choice_point_mass (p : list Q) (n k : nat) (u : Q) :
  Forall2 Qeq p (point_mass n k) ->
  (k < n)%nat ->
  (0 <= u)%Q -> (u < 1)%Q ->
  random_choice u p = Ok (Z.of_nat k).
Proof.
  intros Hp Hk Hu0 Hu1. unfold random_choice, valid_distribution.
  unfold point_mass in Hp.
  rewrite (mass_nonnegative n p 0 k Hp). simpl.
  replace (Qeq_bool _ 1) with true.
  - rewrite (searchsorted_mass n p 0 k 0%Q u); try done; [| lia].
    do 2 f_equal. lia.
  - symmetry. apply Qeq_bool_iff. rewrite (mass_total n p 0 k Hp).
    rewrite bool_decide_eq_true_2 by lia. reflexivity.
Qed.

Lemma Forall2_Qeq_refl (p : list Q) : Forall2 Qeq p p.
Proof. induction p; constructor; [reflexivity | done]. Qed.

End SamplingFacts.

(** ** The generation loop *)

Section GenerationFacts.
Import Model Generation.
Variable K : kernels.
Variable lexicon : gmap Z string.

Lemma predict_word_single (m : rnn K) (x : Z) :
  single_step K m ->
  exists m' h,
    predict_word K m x = Ok (m', dense_softmax K (params m) h)
    /\ single_step K m' /\ params m' = params m.
Proof.
  destruct m as [b t w sts]. intros (Hb & Ht & Hs). simpl in *. subst.
  destruct sts as [|st [|st' sts]]; try discriminate.
  eexists _, _. unfold predict_word, predict_on_batch. simpl.
  split; [reflexivity |]. repeat split.
Qed.

Lemma read_story_snoc (ctx : list Z) (x : Z) :
  forall s : vars K,
    read_story K s (ctx ++ [x])
    = match read_story K s ctx with
      | Ok s1 =>
          match predict_word K (generation_rnn s1) x with
          | Ok (m, p) =>
              Ok {| generation_rnn := m; p_next_word := Some p;
                    next_word := next_word s1;
                    generated_ending := generated_ending s1 |}
          | Raise e => Raise e
          end
      | Raise e => Raise e
      end.
Proof.
  induction ctx as [|y ctx IH]; intros s; simpl.
  - destruct (predict_word K (generation_rnn s) x) as [[m p]|e]; done.
  - destruct (predict_word K (generation_rnn s) y) as [[m p]|e];
      simpl; [apply IH | done].
Qed.

(** Reading a story keeps the model's shape and parameters and leaves
    [next_word] and [generated_ending] alone. *)
Lemma read_story_keeps (story : list Z) :
  forall s : vars K,
    single_step K (generation_rnn s) ->
    exists s1,
      read_story K s story = Ok s1
      /\ single_step K (generation_rnn s1)
      /\ params (generation_rnn s1) = params (generation_rnn s)
      /\ next_word s1 = next_word s
      /\ generated_ending s1 = generated_ending s.
Proof.
  induction story as [|x story IH]; intros s Hs; simpl.
  - by exists s.
  - destruct (predict_word_single (generation_rnn s) x Hs)
      as (m & h & -> & Hm & Hp).
    simpl.
    destruct (IH {| generation_rnn := m;
                    p_next_word := Some (dense_softmax K
                                           (params (generation_rnn s)) h);
                    next_word := next_word s;
                    generated_ending := generated_ending s |} Hm)
      as (s1 & -> & H1 & H2 & H3 & H4).
    exists s1. simpl in *.
    split; [done |]. split; [done |]. split; [congruence |]. done.
Qed.

Lemma continue_first (s : vars K) :
  generated_ending s = [] -> continue K lexicon s = Ok true.
Proof. unfold continue. by intros ->. Qed.

Lemma continue_after (s : vars K) (w : Z) (word c : string) :
  generated_ending s <> [] ->
  next_word s = Some w ->
  lexicon !! w = Some word ->
  last_char word = Ok c ->
  continue K lexicon s = Ok (negb (is_eos c)).
Proof.
  unfold continue, getitem. intros Hne -> -> .
  destruct (generated_ending s); [done |]. simpl. by intros ->.
Qed.

Lemma sample_step_single (s : vars K) (p : list Q) (u : Q) (w : Z) :
  single_step K (generation_rnn s) ->
  p_next_word s = Some p ->
  random_choice u p = Ok w ->
  exists m h,
    sample_step K u s
    = Ok {| generation_rnn := m;
            p_next_word :=
              Some (dense_softmax K (params (generation_rnn s)) h);
            next_word := Some w;
            generated_ending := generated_ending s ++ [w] |}
    /\ single_step K m /\ params m = params (generation_rnn s).
Proof.
  intros Hs Hp Hw. unfold sample_step. rewrite Hp, Hw. simpl.
  destruct (predict_word_single (generation_rnn s) w Hs)
    as (m & h & -> & Hm & Hpar).
  exists m, h. done.
Qed.

Lemma lookup_all_missing (ids : list Z) (i : Z) :
  i ∈ ids -> lexicon !! i = None -> lookup_all lexicon ids = Raise KeyError.
Proof.
  intros Hin Hnone. induction ids as [|j ids IH]; [by inversion Hin |].
  simpl. unfold getitem at 1.
  destruct (lexicon !! j) as [word|] eqn:Hj; [| done]. simpl.
  rewrite IH; [done |].
  apply elem_of_cons in Hin as [->|Hin]; [congruence | done].
Qed.

Lemma sampling_loop_unfold (draws : list Q) (s : vars K) :
  sampling_loop K lexicon draws s
  = match continue K lexicon s with
    | Raise e => Crashed K e
    | Ok false => Exited K s draws
    | Ok true =>
        match draws with
        | [] => Spinning K s
        | u :: draws' =>
            match sample_step K u s with
            | Raise e => Crashed K e
            | Ok s' => sampling_loop K lexicon draws' s'
            end
        end
    end.
Proof. by destruct draws. Qed.

Lemma continue_missing (s : vars K) (w : Z) :
  generated_ending s <> [] ->
  next_word s = Some w ->
  lexicon !! w = None ->
  continue K lexicon s = Raise KeyError.
Proof.
  unfold continue, getitem. intros Hne -> ->.
  by destruct (generated_ending s).
Qed.

Lemma sampling_loop_missing (s : vars K) (p : list Q) (u : Q) (w : Z)
    (draws : list Q) :
  single_step K (generation_rnn s) ->
  continue K lexicon s = Ok true ->
  p_next_word s = Some p ->
  random_choice u p = Ok w ->
  lexicon !! w = None ->
  sampling_loop K lexicon (u :: draws) s = Crashed K KeyError.
Proof.
  intros Hs Hcont Hp Hw Hnone.
  rewrite sampling_loop_unfold, Hcont.
  destruct (sample_step_single s p u w Hs Hp Hw) as (m & h & -> & _ & _).
  rewrite sampling_loop_unfold.
  rewrite (continue_missing _ w); try done.
  simpl. by destruct (generated_ending s).
Qed.

End GenerationFacts.

Lemma lexicon_lookup_absent (word_index : list (string * Z)) (i : Z) :
  Forall (fun wi => wi.2 <> i) word_index ->
  Generation.lexicon_lookup word_index !! i = None.
Proof.
  unfold Generation.lexicon_lookup.
  assert (Hgen : forall d : gmap Z string,
             d !! i = None ->
             Forall (fun wi : string * Z => wi.2 <> i) word_index ->
             foldl (fun d wi => <[wi.2:=wi.1]> d) d word_index !! i = None).
  { induction word_index as [|[w j] l IH]; intros d Hd Hall; [done |].
    apply Forall_cons_1 in Hall as [Hj Hall]. simpl in *.
    apply IH; [| done]. by rewrite lookup_insert_ne. }
  apply Hgen. apply lookup_empty.
Qed.

Section GenerationTheorems.
Import Model Generation.

(** While no sampled word ends a sentence the loop keeps sampling: it
    uses up every variate it is given and is still running. *)
Lemma sampling_loop_spins (K : kernels) (lexicon : gmap Z string)
    (w0 : weights K) (draws : list Q) :
  (forall h u, (0 <= u)%Q -> (u < 1)%Q ->
     exists w word c,
       random_choice u (dense_softmax K w0 h) = Ok w
       /\ lexicon !! w = Some word /\ last_char word = Ok c
       /\ is_eos c = false) ->
  Forall (fun u => (0 <= u)%Q /\ (u < 1)%Q) draws ->
  forall s : vars K,
    single_step K (generation_rnn s) ->
    params (generation_rnn s) = w0 ->
    (exists h, p_next_word s = Some (dense_softmax K w0 h)) ->
    continue K lexicon s = Ok true ->
    exists s_end,
      sampling_loop K lexicon draws s = Spinning K s_end
      /\ length (generated_ending s_end)
         = (length (generated_ending s) + length draws)%nat.
Proof.
  intros Hnever Hdraws.
  induction Hdraws as [|u draws [Hu0 Hu1] _ IH];
    intros s Hs Hw (h & Hp) Hcont; simpl; rewrite Hcont.
  - exists s. split; [done | lia].
  - destruct (Hnever h u Hu0 Hu1) as (w & word & c & Hw1 & Hw2 & Hw3 & Hw4).
    destruct (sample_step_single K s _ u w Hs Hp Hw1)
      as (m & h' & -> & Hm & Hpar).
    edestruct IH as (s_end & -> & Hlen).
    + exact Hm.
    + simpl. congruence.
    + simpl. exists h'. by rewrite Hw.
    + erewrite continue_after; simpl; eauto.
      * by rewrite Hw4.
      * by destruct (generated_ending s).
    + exists s_end. split; [done |].
      rewrite Hlen. simpl. rewrite length_app. simpl. lia.
Qed.

(** C1, as stated, fails for the cap M = 2: on a model that never emits
    an end-of-sentence word, three variates give three sampling steps,
    and the loop condition still holds. *)
Lemma sampling_exceeds_any_cap :
  let K := Doubles.never_stop in
  let lexicon := lexicon_lookup Doubles.word_index in
  exists s,
    generate K lexicon (initial K (Doubles.loaded K)) [1; 2; 3]
             [1 # 2; 1 # 2; 1 # 2]%Q
    = Unfinished K s
    /\ generated_ending s = [1; 1; 1]
    /\ ~ (length (generated_ending s) <= 2)%nat
    /\ continue K lexicon s = Ok true.
Proof.
  intros K lexicon. eexists. split; [vm_compute; reflexivity |].
  split; [reflexivity |]. split; [simpl; lia | reflexivity].
Qed.

(** C1, amended. [generate] takes no step cap: on a non-empty context,
    with a model whose sampled words never end in an end-of-sentence
    marker, it performs one sampling step for every variate supplied,
    however many, and its loop has not exited. *)
Theorem generate_has_no_step_cap (K : kernels) (lexicon : gmap Z string)
    (s : vars K) (ctx : list Z) (x : Z) (draws : list Q) :
  single_step K (generation_rnn s) ->
  (forall h u, (0 <= u)%Q -> (u < 1)%Q ->
     exists w word c,
       random_choice u (dense_softmax K (params (generation_rnn s)) h)
       = Ok w
       /\ lexicon !! w = Some word /\ last_char word = Ok c
       /\ is_eos c = false) ->
  Forall (fun u => (0 <= u)%Q /\ (u < 1)%Q) draws ->
  exists s_end,
    generate K lexicon s (ctx ++ [x]) draws = Unfinished K s_end
    /\ length (generated_ending s_end) = length draws.
Proof.
  intros Hs Hnever Hdraws. unfold generate.
  rewrite read_story_snoc.
  destruct (read_story_keeps K ctx (begin_story K s) Hs)
    as (s1 & -> & Hs1 & Hp1 & _ & He1).
  destruct (predict_word_single K (generation_rnn s1) x Hs1)
    as (m & h & -> & Hm & Hpm).
  simpl in Hp1, He1.
  edestruct (sampling_loop_spins K lexicon (params (generation_rnn s))
               draws Hnever Hdraws) as (s_end & -> & Hlen).
  - exact Hm.
  - simpl. congruence.
  - simpl. exists h. by rewrite Hp1.
  - apply continue_first. simpl. exact He1.
  - exists s_end. split; [done |]. rewrite Hlen. simpl. by rewrite He1.
Qed.

Lemma generate_has_no_step_cap_witness :
  exists s_end,
    generate Doubles.never_stop (lexicon_lookup Doubles.word_index)
      (initial Doubles.never_stop
         (Doubles.loaded Doubles.never_stop))
      [1; 2; 3] [1 # 2; 1 # 3; 1 # 4; 1 # 5]%Q
    = Unfinished Doubles.never_stop s_end
    /\ length (generated_ending s_end) = 4%nat.
Proof.
  apply (generate_has_no_step_cap Doubles.never_stop
           (lexicon_lookup Doubles.word_index)
           (initial Doubles.never_stop
              (Doubles.loaded Doubles.never_stop))
           [1; 2] 3 [1 # 2; 1 # 3; 1 # 4; 1 # 5]%Q).
  - repeat split.
  - intros h u Hu0 Hu1. exists 1, "the"%string, "e"%string.
    split; [| by vm_compute].
    apply (random_choice_point_mass _ 5 1 u); [| lia | done | done].
    apply Forall2_Qeq_refl.
  - repeat constructor; vm_compute; congruence.
Defined.

(** C4. On a non-empty context, with a model that puts probability 1 on
    one word whose surface form ends in an end-of-sentence marker,
    [generate] reads the context, samples its first word from the
    distribution returned for the last context word, performs exactly
    that one sampling step and returns the one-word ending. *)
Theorem generate_stops_at_first_eos (K : kernels)
    (lexicon : gmap Z string) (s : vars K) (ctx : list Z) (x : Z)
    (n k : nat) (word c : string) (u : Q) (draws : list Q) :
  single_step K (generation_rnn s) ->
  (k < n)%nat ->
  (forall h,
     Forall2 Qeq (dense_softmax K (params (generation_rnn s)) h)
             (point_mass n k)) ->
  lexicon !! Z.of_nat k = Some word ->
  last_char word = Ok c ->
  is_eos c = true ->
  (0 <= u)%Q -> (u < 1)%Q ->
  exists s1 m p s_read s_end,
    read_story K (begin_story K s) ctx = Ok s1
    /\ predict_word K (generation_rnn s1) x = Ok (m, p)
    /\ read_story K (begin_story K s) (ctx ++ [x]) = Ok s_read
    /\ p_next_word s_read = Some p
    /\ random_choice u p = Ok (Z.of_nat k)
    /\ sampling_loop K lexicon (u :: draws) s_read = Exited K s_end draws
    /\ steps_taken K (sampling_loop K lexicon (u :: draws) s_read)
       = Some 1%nat
    /\ generated_ending s_end = [Z.of_nat k]
    /\ generate K lexicon s (ctx ++ [x]) (u :: draws)
       = Generated K (end_story K s_end) [Z.of_nat k] word draws.
Proof.
  intros Hs Hk Hmass Hword Hc Heos Hu0 Hu1.
  destruct (read_story_keeps K ctx (begin_story K s) Hs)
    as (s1 & Hread & Hs1 & Hp1 & _ & He1).
  destruct (predict_word_single K (generation_rnn s1) x Hs1)
    as (m & h & Hpred & Hm & Hpm).
  simpl in Hp1, He1. rewrite Hp1 in Hpred.
  set (p := dense_softmax K (params (generation_rnn s)) h) in *.
  set (s_read := {| generation_rnn := m; p_next_word := Some p;
                    next_word := next_word s1;
                    generated_ending := generated_ending s1 |}).
  assert (Hsnoc : read_story K (begin_story K s) (ctx ++ [x]) = Ok s_read).
  { by rewrite read_story_snoc, Hread, Hpred. }
  assert (Hchoice : random_choice u p = Ok (Z.of_nat k)).
  { exact (random_choice_point_mass p n k u (Hmass h) Hk Hu0 Hu1). }
  destruct (sample_step_single K s_read p u (Z.of_nat k) Hm eq_refl Hchoice)
    as (m2 & h2 & Hstep & Hm2 & Hpm2).
  simpl in Hstep. rewrite He1 in Hstep. simpl in Hstep.
  match type of Hstep with _ = Ok ?t => set (s_end := t) in * end.
  assert (Hloop : sampling_loop K lexicon (u :: draws) s_read
                  = Exited K s_end draws).
  { simpl. rewrite continue_first by exact He1. rewrite Hstep.
    destruct draws as [|u' draws']; simpl;
      by rewrite (continue_after K lexicon s_end (Z.of_nat k) word c),
                 Heos. }
  exists s1, m, p, s_read, s_end.
  repeat split; try done.
  { by rewrite Hloop. }
  unfold generate. rewrite Hsnoc, Hloop.
  unfold decode. simpl. unfold getitem. rewrite Hword. simpl.
  done.
Qed.

Lemma generate_stops_at_first_eos_witness :
  exists s_end,
    generate Doubles.always_stop (lexicon_lookup Doubles.word_index)
      (initial Doubles.always_stop
         (Doubles.loaded Doubles.always_stop))
      [1; 2; 3] [1 # 2]%Q
    = Generated Doubles.always_stop s_end [4] "." [].
Proof.
  destruct (generate_stops_at_first_eos Doubles.always_stop
              (lexicon_lookup Doubles.word_index)
              (initial Doubles.always_stop
                 (Doubles.loaded Doubles.always_stop))
              [1; 2] 3 5 4 "." "." (1 # 2)%Q [])
    as (s1 & m & p & s_read & s_end & _ & _ & _ & _ & _ & _ & _ & _ & Hgen).
  - repeat split.
  - lia.
  - intros h. apply Forall2_Qeq_refl.
  - reflexivity.
  - reflexivity.
  - reflexivity.
  - vm_compute. congruence.
  - reflexivity.
  - exists (end_story Doubles.always_stop s_end). exact Hgen.
Defined.

(** C10. Decoding fails with [KeyError] as soon as one id has no entry
    in the reverse lexicon; the lexicon built from a word index, whose
    ids are positive, has no entry for 0; and a sampling step that draws
    an id without an entry, the padding id 0 in particular, ends the
    generation with [KeyError] instead of an ending. *)
Theorem unknown_id_fails_loudly (K : kernels)
    (word_index : list (string * Z)) :
  Forall (fun wi => 0 < wi.2) word_index ->
  lexicon_lookup word_index !! 0 = None
  /\ (forall (n : nat) (u : Q),
        (0 < n)%nat -> (0 <= u)%Q -> (u < 1)%Q ->
        random_choice u (point_mass n 0) = Ok 0)
  /\ (forall (lexicon : gmap Z string) (ids : list Z) (i : Z),
        i ∈ ids -> lexicon !! i = None ->
        decode lexicon ids = Raise KeyError)
  /\ (forall (lexicon : gmap Z string) (s : vars K) (p : list Q) (u : Q)
             (w : Z) (draws : list Q),
        single_step K (generation_rnn s) ->
        continue K lexicon s = Ok true ->
        p_next_word s = Some p ->
        random_choice u p = Ok w ->
        lexicon !! w = None ->
        sampling_loop K lexicon (u :: draws) s = Crashed K KeyError)
  /\ (forall (s s_read : vars K) (story : list Z) (p : list Q) (u : Q)
             (draws : list Q),
        single_step K (generation_rnn s) ->
        read_story K (begin_story K s) story = Ok s_read ->
        p_next_word s_read = Some p ->
        random_choice u p = Ok 0 ->
        generate K (lexicon_lookup word_index) s story (u :: draws)
        = Failed K KeyError).
Proof.
  intros Hpos.
  assert (Hzero : lexicon_lookup word_index !! 0 = None).
  { apply lexicon_lookup_absent.
    eapply Forall_impl; [exact Hpos |]. simpl. intros wi Hwi. lia. }
  split; [exact Hzero |]. split; [| split; [| split]].
  - intros n u Hn Hu0 Hu1.
    by apply (random_choice_point_mass _ n 0 u).
  - intros lexicon ids i Hin Hnone. unfold decode.
    by rewrite (lookup_all_missing lexicon ids i).
  - intros lexicon s p u w draws. apply sampling_loop_missing.
  - intros s s_read story p u draws Hs Hread Hp Hw.
    destruct (read_story_keeps K story (begin_story K s) Hs)
      as (s1 & Hread' & Hs1 & _ & _ & He1).
    rewrite Hread in Hread'. injection Hread' as <-.
    unfold generate. rewrite Hread.
    rewrite (sampling_loop_missing K _ s_read p u 0 draws); try done.
    by apply continue_first.
Qed.

Lemma unknown_id_fails_loudly_witness :
  lexicon_lookup Doubles.word_index !! 0 = None
  /\ generate Doubles.pads (lexicon_lookup Doubles.word_index)
       (initial Doubles.pads (Doubles.loaded Doubles.pads))
       [1; 2; 3] [1 # 2]%Q
     = Failed Doubles.pads KeyError.
Proof.
  destruct (unknown_id_fails_loudly Doubles.pads Doubles.word_index)
    as (Hzero & _ & _ & _ & Hgen).
  - repeat constructor.
  - split; [exact Hzero |].
    eapply (Hgen _ _ [1; 2; 3] _ (1 # 2)%Q []).
    + repeat split.
    + vm_compute. reflexivity.
    + reflexivity.
    + vm_compute. reflexivity.
Defined.

(** C9. What cell 28 does on an empty context: the first word of the
    ending is sampled from the distribution left behind by the story
    before it, so the ending changes with that story and is not the one
    the zero state would give; and when there is no story before it the
    cell stops with [NameError]. *)
Theorem empty_context_uses_stale_distribution :
  let K := Doubles.echo in
  let lexicon := lexicon_lookup Doubles.word_index2 in
  let s := initial K (Doubles.loaded K) in
  let draws := [1 # 2; 1 # 2; 1 # 2; 1 # 2]%Q in
  generate_all K lexicon s [[1]; []] draws
  = ([([4], "."); ([1; 4], "the .")], Completed)%string
  /\ generate_all K lexicon s [[2]; []] draws
     = ([([5], "!"); ([3; 4], "sat .")], Completed)%string
  /\ generate_all K lexicon s [[]] draws = ([], Aborted NameError)
  /\ dense_softmax K (params (Doubles.loaded K)) (zeros K)
     = point_mass 6 4.
Proof. repeat split; vm_compute; reflexivity. Qed.

End GenerationTheorems.

(** * Further properties of the notebook's code *)

(** ** The reverse lexicon and decoding (cell 24) *)

Section LexiconProperties.
Import Generation.

Lemma lexicon_lookup_snoc (word_index : list (string * Z))
    (w : string) (i : Z) :
  lexicon_lookup (word_index ++ [(w, i)])
  = <[i := w]> (lexicon_lookup word_index).
Proof. unfold lexicon_lookup. by rewrite foldl_app. Qed.

Lemma lexicon_lookup_entry (word_index : list (string * Z))
    (w : string) (i : Z) :
  NoDup (word_index.*2) ->
  (w, i) ∈ word_index ->
  lexicon_lookup word_index !! i = Some w.
Proof.
  induction word_index as [|[w' i'] l IH] using rev_ind; intros Hnd Hin.
  - by apply elem_of_nil in Hin.
  - rewrite lexicon_lookup_snoc.
    rewrite fmap_app in Hnd. apply NoDup_app in Hnd as (Hl & Hfresh & _).
    apply elem_of_app in Hin as [Hin | Hin].
    + assert (i <> i').
      { intros ->. apply (Hfresh i'); [| set_solver].
        apply list_elem_of_fmap. by exists (w, i'). }
      rewrite lookup_insert_ne by done. by apply IH.
    + apply list_elem_of_singleton in Hin. injection Hin as -> ->.
      by rewrite lookup_insert_eq.
Qed.

Lemma lookup_all_cons_ok (lexicon : gmap Z string) (i : Z) (w : string)
    (ids : list Z) (ws : list string) :
  lexicon !! i = Some w ->
  lookup_all lexicon ids = Ok ws ->
  lookup_all lexicon (i :: ids) = Ok (w :: ws).
Proof.
  intros Hi Hids. simpl. unfold getitem. rewrite Hi. simpl.
  by rewrite Hids.
Qed.

(** X1. When no index is given to two words, decoding the indices of any
    words of the word index gives those words back, joined by spaces. *)
Theorem decode_inverts_word_index (word_index items : list (string * Z)) :
  NoDup (word_index.*2) ->
  Forall (fun item => item ∈ word_index) items ->
  lookup_all (lexicon_lookup word_index) (items.*2) = Ok (items.*1)
  /\ decode (lexicon_lookup word_index) (items.*2)
     = Ok (String.concat " " (items.*1)).
Proof.
  intros Hnd Hitems.
  assert (Hall : lookup_all (lexicon_lookup word_index) (items.*2)
                 = Ok (items.*1)).
  { induction Hitems as [|[w i] items Hin _ IH]; [done |].
    rewrite !fmap_cons. apply lookup_all_cons_ok; [| exact IH].
    by apply lexicon_lookup_entry. }
  split; [exact Hall |]. unfold decode. by rewrite Hall.
Qed.

Lemma decode_inverts_word_index_witness :
  decode (lexicon_lookup Doubles.word_index) [3; 1; 4]
  = Ok "sat the ."%string.
Proof.
  apply (decode_inverts_word_index Doubles.word_index
           [("sat", 3); ("the", 1); (".", 4)]%string).
  - compute_done.
  - compute_done.
Defined.

Lemma lexicon_lookup_app (l1 l2 : list (string * Z)) :
  lexicon_lookup (l1 ++ l2)
  = foldl (fun d wi => <[wi.2 := wi.1]> d) (lexicon_lookup l1) l2.
Proof. unfold lexicon_lookup. by rewrite foldl_app. Qed.

Lemma foldl_insert_other (l : list (string * Z)) (i : Z) :
  i ∉ l.*2 ->
  forall d : gmap Z string,
    foldl (fun d wi => <[wi.2 := wi.1]> d) d l !! i = d !! i.
Proof.
  induction l as [|[w j] l IH]; intros Hi d; [done |].
  rewrite fmap_cons, not_elem_of_cons in Hi. destruct Hi as [Hne Hi].
  simpl in *. rewrite (IH Hi). by rewrite lookup_insert_ne.
Qed.

(** X2. The reverse lexicon has an entry exactly for the indices that
    occur in the word index, and where an index occurs more than once the
    word of its last occurrence takes it, wherever that occurrence is. *)
Theorem lexicon_lookup_domain (word_index : list (string * Z)) (i : Z) :
  (is_Some (lexicon_lookup word_index !! i) <-> i ∈ word_index.*2)
  /\ (forall before after w,
        word_index = before ++ (w, i) :: after ->
        i ∉ after.*2 ->
        lexicon_lookup word_index !! i = Some w).
Proof.
  split.
  - induction word_index as [|[w' i'] l IH] using rev_ind.
    + unfold lexicon_lookup. simpl. rewrite lookup_empty.
      split; [by intros [? ?] | by intros ?%elem_of_nil].
    + rewrite lexicon_lookup_snoc, fmap_app, elem_of_app. simpl.
      destruct (decide (i' = i)) as [->|Hne].
      * rewrite lookup_insert_eq. split; [set_solver | by eexists].
      * rewrite lookup_insert_ne by done. rewrite IH. set_solver.
  - intros before after w -> Hafter.
    change (before ++ (w, i) :: after)
      with (before ++ [(w, i)] ++ after).
    rewrite app_assoc, lexicon_lookup_app.
    rewrite (foldl_insert_other after i Hafter).
    by rewrite lexicon_lookup_snoc, lookup_insert_eq.
Qed.

Lemma lexicon_lookup_domain_witness :
  lexicon_lookup [("a", 1); ("b", 2); ("c", 1); ("d", 3)]%string !! 1
  = Some "c"%string.
Proof.
  apply (proj2 (lexicon_lookup_domain
                  [("a", 1); ("b", 2); ("c", 1); ("d", 3)]%string 1)
               [("a", 1); ("b", 2)]%string [("d", 3)]%string "c"%string).
  - reflexivity.
  - compute_done.
Defined.

Lemma lookup_all_ok (lexicon : gmap Z string) (ids : list Z)
    (ws : list string) :
  lookup_all lexicon ids = Ok ws <->
  Forall2 (fun i w => lexicon !! i = Some w) ids ws.
Proof.
  revert ws. induction ids as [|i ids IH]; intros ws; simpl.
  - split.
    + intros [= <-]. constructor.
    + intros ->%Forall2_nil_inv_l. done.
  - unfold getitem at 1. destruct (lexicon !! i) as [w|] eqn:Hi; simpl.
    + destruct (lookup_all lexicon ids) as [ws'|e] eqn:Hrest; simpl.
      * split.
        -- intros [= <-]. constructor; [done | by apply IH].
        -- intros (w1 & ws1 & Hw & Hws & ->)%Forall2_cons_inv_l.
           apply IH in Hws. congruence.
      * split; [done |].
        intros (w1 & ws1 & Hw & Hws & ->)%Forall2_cons_inv_l.
        apply IH in Hws. congruence.
    + split; [done |].
      intros (w1 & ws1 & Hw & Hws & ->)%Forall2_cons_inv_l. congruence.
Qed.

Lemma lookup_all_raises (lexicon : gmap Z string) (ids : list Z)
    (e : exn) :
  lookup_all lexicon ids = Raise e ->
  e = KeyError /\ exists i, i ∈ ids /\ lexicon !! i = None.
Proof.
  induction ids as [|i ids IH]; simpl; [done |].
  unfold getitem at 1. destruct (lexicon !! i) as [w|] eqn:Hi; simpl.
  - destruct (lookup_all lexicon ids) as [ws'|e'] eqn:Hrest; simpl;
      [done |].
    intros [= <-]. destruct (IH eq_refl) as (-> & j & Hj & Hnone).
    split; [done |]. exists j. split; [set_solver | done].
  - intros [= <-]. split; [done |]. exists i. split; [set_solver | done].
Qed.

(** X3. Decoding returns a text exactly when every id has a word, and the
    text is then the words joined by single spaces; the only exception it
    raises is [KeyError], and then some id of the list has no entry. *)
Theorem decode_total_on_known_ids (lexicon : gmap Z string)
    (ids : list Z) :
  (forall text,
     decode lexicon ids = Ok text <->
     exists ws, Forall2 (fun i w => lexicon !! i = Some w) ids ws
                /\ text = String.concat " " ws)
  /\ (forall e,
        decode lexicon ids = Raise e ->
        e = KeyError /\ exists i, i ∈ ids /\ lexicon !! i = None).
Proof.
  unfold decode. split.
  - intros text. destruct (lookup_all lexicon ids) as [ws|e] eqn:Hall;
      simpl.
    + apply lookup_all_ok in Hall. split.
      * intros [= <-]. by exists ws.
      * intros (ws' & Hws' & ->). apply lookup_all_ok in Hall, Hws'.
        congruence.
    + split; [done |]. intros (ws' & Hws' & _).
      apply lookup_all_ok in Hws'. congruence.
  - intros e. destruct (lookup_all lexicon ids) as [ws|e'] eqn:Hall;
      simpl; [done |].
    intros [= <-]. by apply lookup_all_raises.
Qed.

End LexiconProperties.

(** ** The mini-batches of the training loop (cell 18) *)

Section BatchProperties.
Import Model Training.

Lemma ceil_div_bounds (n bs : nat) :
  (0 < bs)%nat ->
  (n <= (n + bs - 1) / bs * bs)%nat
  /\ (forall k, (k < (n + bs - 1) / bs)%nat -> (k * bs < n)%nat).
Proof.
  intros Hbs.
  pose proof (Nat.div_mod_eq (n + bs - 1) bs) as Hdm.
  pose proof (Nat.mod_upper_bound (n + bs - 1) bs ltac:(lia)) as Hr.
  split; [nia |]. intros k Hk. nia.
Qed.

Lemma ceil_div_multiple (c bs : nat) :
  (0 < bs)%nat -> ((c * bs + bs - 1) / bs = c)%nat.
Proof.
  intros Hbs. symmetry. apply (Nat.div_unique _ _ _ (bs - 1)); lia.
Qed.

Lemma range_step_length (n bs : nat) (idxs : list nat) :
  range_step n bs = Ok idxs ->
  length idxs = ((n + bs - 1) / bs)%nat /\ (0 < bs)%nat.
Proof.
  unfold range_step. destruct bs as [|b] eqn:Hbs; [done |].
  intros [= <-]. rewrite length_fmap, length_seq. split; [done | lia].
Qed.

Lemma range_step_lookup (n bs : nat) (idxs : list nat) (k idx : nat) :
  range_step n bs = Ok idxs ->
  idxs !! k = Some idx ->
  idx = (k * bs)%nat /\ (idx < n)%nat /\ (0 < bs)%nat.
Proof.
  unfold range_step. destruct bs as [|b]; [done |].
  intros [= <-]. rewrite list_lookup_fmap.
  destruct (seq 0 _ !! k) as [k'|] eqn:Hk; [| done].
  apply lookup_seq in Hk as [-> Hlt]. simpl. intros [= <-].
  split; [done |]. split; [| lia].
  by apply ceil_div_bounds; [lia |].
Qed.

Lemma batches_cover_range {A} (x : list A) (bs : nat) (c : nat) :
  forall a,
    concat ((fun idx => rows x idx bs)
              <$> ((fun k => (k * bs)%nat) <$> seq a c))
    = take (c * bs) (drop (a * bs) x).
Proof.
  induction c as [|c IH]; intros a; [done |].
  simpl. rewrite IH. unfold rows.
  replace (S a * bs)%nat with (a * bs + bs)%nat by lia.
  rewrite <- drop_drop. by rewrite take_take_drop.
Qed.

(** X4. The mini-batches the loop takes from a matrix, laid end to end,
    are the matrix: every row is in exactly one mini-batch, in order. *)
Theorem batches_partition_rows {A} (x : list A) (bs : nat)
    (idxs : list nat) :
  range_step (length x) bs = Ok idxs ->
  concat ((fun idx => rows x idx bs) <$> idxs) = x.
Proof.
  unfold range_step. destruct bs as [|b] eqn:Hbs; [done |].
  intros [= <-]. rewrite batches_cover_range. simpl. rewrite drop_0.
  apply take_ge.
  by apply (ceil_div_bounds (length x) (S b)); lia.
Qed.

Lemma batches_partition_rows_witness :
  concat ((fun idx => rows [10; 20; 30; 40; 50] idx 2) <$> [0; 2; 4]%nat)
  = [10; 20; 30; 40; 50].
Proof.
  apply (batches_partition_rows [10; 20; 30; 40; 50] 2 [0; 2; 4]%nat).
  reflexivity.
Defined.

Lemma rows_length_at {A} (x : list A) (bs : nat) (idxs : list nat)
    (k idx : nat) :
  range_step (length x) bs = Ok idxs ->
  idxs !! k = Some idx ->
  length (rows x idx bs) = Nat.min bs (length x - k * bs)
  /\ (k * bs < length x)%nat.
Proof.
  intros Hrange Hk.
  destruct (range_step_lookup _ _ _ _ _ Hrange Hk) as (-> & Hlt & Hbs).
  unfold rows. by rewrite length_take, length_drop.
Qed.

(** X5. No mini-batch is empty or has more than [batch_size] rows; every
    mini-batch before the last has exactly [batch_size] rows, and the last
    one has what is left. *)
Theorem batch_row_counts {A} (x : list A) (bs : nat) (idxs : list nat)
    (k idx : nat) :
  range_step (length x) bs = Ok idxs ->
  idxs !! k = Some idx ->
  length (rows x idx bs) = Nat.min bs (length x - k * bs)
  /\ (0 < length (rows x idx bs) <= bs)%nat
  /\ ((S k < length idxs)%nat -> length (rows x idx bs) = bs).
Proof.
  intros Hrange Hk.
  destruct (range_step_lookup _ _ _ _ _ Hrange Hk) as (-> & Hlt & Hbs).
  unfold rows. rewrite length_take, length_drop.
  split; [done |]. split; [lia |]. intros Hnext.
  destruct (lookup_lt_is_Some_2 idxs (S k) Hnext) as [idx' Hk'].
  destruct (range_step_lookup _ _ _ _ _ Hrange Hk') as (-> & Hlt' & _).
  lia.
Qed.

Lemma batch_row_counts_witness :
  length (rows [10; 20; 30; 40; 50] 4 2) = 1%nat.
Proof.
  apply (batch_row_counts [10; 20; 30; 40; 50] 2 [0; 2; 4]%nat 2 4).
  - reflexivity.
  - reflexivity.
Defined.

End BatchProperties.

(** ** From the stories to a trained model (cells 10 to 18) *)

Section PipelineProperties.
Import Model Training Pipeline.

Lemma padded_matrix_width (train_idxs : list (list Z)) :
  Forall (fun r => length r = Padding.maxlen train_idxs)
         (Padding.padded_matrix train_idxs).
Proof.
  apply Forall_lookup_2. intros i r Hr.
  unfold Padding.padded_matrix, Padding.pad_sequences in Hr.
  rewrite list_lookup_fmap in Hr.
  destruct (train_idxs !! i) as [s|] eqn:Hs; [| done].
  injection Hr as <-.
  pose proof (maxlen_fits _ _ _ Hs) as Hle.
  rewrite (pad_row_fits _ _ Hle), length_app, length_replicate. lia.
Qed.

Lemma prepared_shapes (train_idxs : list (list Z)) :
  let x := Slicing.train_x (Padding.padded_matrix train_idxs) in
  let y := Slicing.train_y (Padding.padded_matrix train_idxs) in
  length x = length train_idxs
  /\ length y = length train_idxs
  /\ Forall (fun r => length r = (Padding.maxlen train_idxs - 1)%nat) x
  /\ Forall (fun r => length r = (Padding.maxlen train_idxs - 1)%nat) y.
Proof.
  intros x y. unfold x, y, Slicing.train_x, Slicing.train_y.
  rewrite !length_map.
  unfold Padding.padded_matrix at 1 2, Padding.pad_sequences.
  rewrite !length_map.
  split; [done |]. split; [done |].
  pose proof (padded_matrix_width train_idxs) as Hw.
  split; apply Forall_fmap; apply (Forall_impl _ _ _ Hw);
    intros r Hr; simpl.
  - rewrite slice_to_last, length_take. lia.
  - rewrite slice_from_first, length_drop. lia.
Qed.

Lemma initialize_some (K : kernels) (word_index : list (string * Z))
    (bs maxlen : nat) :
  (0 < maxlen)%nat ->
  exists m,
    initialize K word_index bs maxlen = Some m
    /\ batch_size m = bs
    /\ n_timesteps m = (maxlen - 1)%nat.
Proof.
  destruct maxlen as [|n]; [lia |]. intros _. eexists.
  split; [reflexivity |]. simpl. split; [done | lia].
Qed.

(** X6. Cells 10 and 12 fail on an empty list of stories and otherwise
    give two matrices with one row per story; when some story has a word
    every row of both has [maxlen - 1] columns, which is the [n_timesteps]
    of the model that cell 16 builds, whose batch size is the one
    given. *)
Theorem prepared_matrices_fit_model (K : kernels)
    (word_index : list (string * Z)) (bs : nat)
    (train_idxs : list (list Z)) :
  (train_idxs = [] -> prepare train_idxs = Raise ValueError)
  /\ (train_idxs <> [] ->
      exists x y,
        prepare train_idxs = Ok (Padding.maxlen train_idxs, x, y)
        /\ length x = length train_idxs
        /\ length y = length train_idxs
        /\ ((0 < Padding.maxlen train_idxs)%nat ->
            exists m,
              initialize K word_index bs (Padding.maxlen train_idxs)
              = Some m
              /\ batch_size m = bs
              /\ Z.of_nat (n_timesteps m)
                 = Z.of_nat (Padding.maxlen train_idxs) - 1
              /\ Forall (fun r => length r = n_timesteps m) x
              /\ Forall (fun r => length r = n_timesteps m) y)).
Proof.
  split; [by intros -> |]. intros Hne.
  exists (Slicing.train_x (Padding.padded_matrix train_idxs)),
         (Slicing.train_y (Padding.padded_matrix train_idxs)).
  destruct (prepared_shapes train_idxs) as (Hx & Hy & Hxw & Hyw).
  split; [by destruct train_idxs |].
  split; [done |]. split; [done |]. intros Hpos.
  destruct (initialize_some K word_index bs _ Hpos) as (m & Hm & Hb & Ht).
  exists m. rewrite Ht.
  split; [done |]. split; [done |]. split; [lia |]. done.
Qed.

Lemma prepared_matrices_fit_model_witness :
  exists x y,
    prepare [[1; 3; 2]; [4]] = Ok (3%nat, x, y)
    /\ length x = 2%nat /\ length y = 2%nat
    /\ ((0 < 3)%nat ->
        exists m,
          initialize Doubles.echo Doubles.word_index2 20 3 = Some m
          /\ batch_size m = 20%nat
          /\ Z.of_nat (n_timesteps m) = 2
          /\ Forall (fun r => length r = n_timesteps m) x
          /\ Forall (fun r => length r = n_timesteps m) y).
Proof.
  apply (proj2 (prepared_matrices_fit_model Doubles.echo
                  Doubles.word_index2 20 [[1; 3; 2]; [4]])).
  discriminate.
Defined.

Lemma shape_ok_rows (K : kernels) (m : rnn K) (x : list (list Z))
    (idx bs : nat) :
  batch_size m = bs ->
  Forall (fun r => length r = n_timesteps m) x ->
  length (rows x idx bs) = bs ->
  shape_ok K m (rows x idx bs) = true.
Proof.
  intros Hb Hrows Hlen. unfold shape_ok.
  rewrite Hlen, Hb, Nat.eqb_refl. simpl.
  assert (Hsub : Forall (fun r => length r = n_timesteps m)
                        (rows x idx bs)).
  { by apply Forall_take, Forall_drop. }
  rewrite Forall_forall in Hsub.
  apply forallb_forall. intros r Hr. apply Nat.eqb_eq, Hsub.
  by apply list_elem_of_In.
Qed.

Lemma prepared_in_vocabulary (n : nat) (train_idxs : list (list Z)) :
  Forall (Forall (fun i => 0 < i /\ in_vocabulary n i)) train_idxs ->
  Forall (Forall (in_vocabulary n))
         (Slicing.train_x (Padding.padded_matrix train_idxs))
  /\ Forall (Forall (in_vocabulary n))
            (Slicing.train_y (Padding.padded_matrix train_idxs)).
Proof.
  intros Hids.
  assert (Hpad : Forall (Forall (in_vocabulary n))
                        (Padding.padded_matrix train_idxs)).
  { apply Forall_lookup_2. intros i r Hr.
    unfold Padding.padded_matrix, Padding.pad_sequences in Hr.
    rewrite list_lookup_fmap in Hr.
    destruct (train_idxs !! i) as [s|] eqn:Hs; [| done].
    injection Hr as <-.
    rewrite (pad_row_fits _ _ (maxlen_fits _ _ _ Hs)).
    apply Forall_app. split.
    - apply Forall_replicate. unfold in_vocabulary. lia.
    - rewrite Forall_lookup in Hids. specialize (Hids _ _ Hs).
      apply (Forall_impl _ _ _ Hids). by intros j [_ Hj]. }
  unfold Slicing.train_x, Slicing.train_y.
  split; apply Forall_fmap; apply (Forall_impl _ _ _ Hpad);
    intros r Hr; simpl.
  - by apply Forall_take.
  - by apply Forall_drop.
Qed.

(** X7. When every id of every story is a word of the lexicon, some
    story has at least two words and the number of stories is a multiple
    of the batch size, the prepared matrices hold only indices the
    embedding has a row for, and one epoch on them, with the model of
    cell 16, raises nothing: the loop trains on every mini-batch, the
    losses the epoch averages are the ones the loop recorded, one for
    each mini-batch, and the model keeps its shape. *)
Theorem epoch_runs_on_full_batches (K : kernels)
    (word_index : list (string * Z)) (train_idxs : list (list Z))
    (bs c : nat) (x y : list (list Z)) :
  prepare train_idxs = Ok (Padding.maxlen train_idxs, x, y) ->
  (2 <= Padding.maxlen train_idxs)%nat ->
  Forall (Forall (fun i => 0 < i /\ in_vocabulary (length word_index) i))
         train_idxs ->
  (0 < bs)%nat ->
  length train_idxs = (c * bs)%nat ->
  Forall (Forall (in_vocabulary (length word_index))) x
  /\ Forall (Forall (in_vocabulary (length word_index))) y
  /\ exists m idxs m_end losses,
       initialize K word_index bs (Padding.maxlen train_idxs) = Some m
       /\ range_step (length train_idxs) bs = Ok idxs
       /\ batch_loop K x y bs m idxs [] = Ok (m_end, losses)
       /\ length idxs = c
       /\ length losses = c
       /\ epoch K x y bs (length train_idxs) m
          = Ok (m_end, {| mean_loss := Float.mean losses;
                          saved := params m_end |})
       /\ batch_size m_end = bs
       /\ n_timesteps m_end = n_timesteps m.
Proof.
  intros Hprep Hmax Hids Hbs Hlen.
  destruct (prepared_shapes train_idxs) as (Hx & Hy & Hxw & Hyw).
  assert (x = Slicing.train_x (Padding.padded_matrix train_idxs)
          /\ y = Slicing.train_y (Padding.padded_matrix train_idxs))
    as [-> ->].
  { unfold prepare in Hprep. destruct train_idxs; [done |].
    by injection Hprep as <- <-. }
  destruct (prepared_in_vocabulary _ _ Hids) as [Hvx Hvy].
  split; [exact Hvx |]. split; [exact Hvy |].
  set (x := Slicing.train_x _) in *. set (y := Slicing.train_y _) in *.
  destruct (initialize_some K word_index bs (Padding.maxlen train_idxs))
    as (m & Hm & Hmb & Hmt); [lia |].
  rewrite <- Hmt in Hxw, Hyw.
  destruct (range_step (length train_idxs) bs) as [idxs|e] eqn:Hrange;
    [| by destruct bs; [lia | done]].
  assert (Hidxs : length idxs = c).
  { destruct (range_step_length _ _ _ Hrange) as [-> _].
    rewrite Hlen. by apply ceil_div_multiple. }
  assert (Hshape : Forall (fun idx =>
            shape_ok K m (rows x idx bs) && shape_ok K m (rows y idx bs)
            = true) idxs).
  { apply Forall_lookup_2. intros k idx Hk.
    assert (Hkc : (k < c)%nat) by (apply lookup_lt_Some in Hk; lia).
    assert (Hrx : range_step (length x) bs = Ok idxs) by by rewrite Hx.
    assert (Hry : range_step (length y) bs = Ok idxs) by by rewrite Hy.
    destruct (rows_length_at x bs idxs k idx Hrx Hk) as [Hlx _].
    destruct (rows_length_at y bs idxs k idx Hry Hk) as [Hly _].
    rewrite !shape_ok_rows; try done.
    - rewrite Hly, Hy, Hlen. nia.
    - rewrite Hlx, Hx, Hlen. nia. }
  destruct (batch_loop_succeeds K x y bs m idxs Hshape m [] eq_refl eq_refl)
    as (m_end & losses & Hrun).
  destruct (batch_loop_invariant K x y bs idxs _ _ _ _ Hrun)
    as (Hb & Ht & _ & new & -> & Hnew).
  exists m, idxs, m_end, new.
  split; [exact Hm |]. split; [done |]. split; [exact Hrun |].
  split; [done |]. split; [lia |]. split.
  - unfold epoch. rewrite Hrange. simpl. by rewrite Hrun.
  - split; [congruence | done].
Qed.

Lemma epoch_runs_on_full_batches_witness :
  exists m idxs m_end losses,
    initialize Doubles.echo Doubles.word_index2 1 3 = Some m
    /\ range_step 2 1 = Ok idxs
    /\ batch_loop Doubles.echo
         (Slicing.train_x (Padding.padded_matrix [[1; 3; 2]; [4]]))
         (Slicing.train_y (Padding.padded_matrix [[1; 3; 2]; [4]])) 1
         m idxs [] = Ok (m_end, losses)
    /\ length idxs = 2%nat
    /\ length losses = 2%nat.
Proof.
  destruct (epoch_runs_on_full_batches Doubles.echo Doubles.word_index2
              [[1; 3; 2]; [4]] 1 2
              (Slicing.train_x (Padding.padded_matrix [[1; 3; 2]; [4]]))
              (Slicing.train_y (Padding.padded_matrix [[1; 3; 2]; [4]])))
    as (_ & _ & m & idxs & m_end & losses & H1 & H2 & H3 & H4 & H5 & _).
  - reflexivity.
  - vm_compute. lia.
  - repeat constructor; vm_compute; congruence.
  - lia.
  - reflexivity.
  - exists m, idxs, m_end, losses. auto.
Defined.

Lemma batch_loop_raises (K : kernels) (x y : list (list Z)) (bs : nat)
    (idxs : list nat) :
  forall (m : rnn K) acc e,
    batch_loop K x y bs m idxs acc = Raise e -> e = ValueError.
Proof.
  induction idxs as [|idx rest IH]; intros m acc e; [done |].
  rewrite batch_loop_cons.
  destruct (train_on_batch K m _ _) as [[m1 loss]|e'] eqn:Hstep.
  - apply IH.
  - intros [= <-]. unfold train_on_batch in Hstep.
    destruct (_ && _); congruence.
Qed.

Lemma batch_loop_ok_shapes (K : kernels) (x y : list (list Z)) (bs : nat)
    (m0 : rnn K) (idxs : list nat) :
  forall (m m_end : rnn K) acc ls,
    batch_size m = batch_size m0 ->
    n_timesteps m = n_timesteps m0 ->
    batch_loop K x y bs m idxs acc = Ok (m_end, ls) ->
    Forall (fun idx => shape_ok K m0 (rows x idx bs) = true) idxs.
Proof.
  induction idxs as [|idx rest IH]; intros m m_end acc ls Hb Ht Hrun;
    [constructor |].
  rewrite batch_loop_cons in Hrun.
  destruct (train_on_batch K m _ _) as [[m1 loss]|e] eqn:Hstep;
    [| done].
  pose proof (train_on_batch_config K _ _ _ _ _ Hstep) as [Hb1 Ht1].
  constructor.
  - unfold train_on_batch in Hstep.
    rewrite (shape_ok_config K m m0) by done.
    by destruct (shape_ok K m (rows x idx bs)).
  - eapply IH; [| | exact Hrun]; simpl; congruence.
Qed.

(** X8. When the number of rows is not a multiple of the batch size the
    model was compiled for, the epoch raises [ValueError]: the last
    mini-batch is short, and [train_on_batch] refuses it. *)
Theorem epoch_rejects_short_last_batch (K : kernels)
    (x y : list (list Z)) (bs : nat) (m : rnn K) :
  batch_size m = bs ->
  (0 < bs)%nat ->
  (length x mod bs <> 0)%nat ->
  epoch K x y bs (length x) m = Raise ValueError.
Proof.
  intros Hb Hbs Hmod. unfold epoch.
  destruct (range_step (length x) bs) as [idxs|e] eqn:Hrange;
    [| by destruct bs; [lia | done]].
  simpl.
  destruct (batch_loop K x y bs m idxs []) as [[m_end ls]|e] eqn:Hrun;
    simpl.
  - exfalso.
    pose proof (batch_loop_ok_shapes K x y bs m idxs m _ _ _
                  eq_refl eq_refl Hrun) as Hshapes.
    destruct (range_step_length _ _ _ Hrange) as [Hlen _].
    destruct (ceil_div_bounds (length x) bs Hbs) as [Hup Hlow].
    pose proof (Nat.div_mod_eq (length x) bs) as Hdm.
    set (c := ((length x + bs - 1) / bs)%nat) in *.
    assert (Hc : (0 < c)%nat) by (destruct c; [simpl in Hup |]; lia).
    destruct (lookup_lt_is_Some_2 idxs (c - 1)) as [idx Hk]; [lia |].
    rewrite Forall_lookup in Hshapes. specialize (Hshapes _ _ Hk).
    destruct (rows_length_at x bs idxs (c - 1) idx Hrange Hk)
      as [Hrows _].
    unfold shape_ok in Hshapes.
    apply andb_true_iff in Hshapes as [Hn _].
    apply Nat.eqb_eq in Hn. rewrite Hrows, Hb in Hn.
    assert (length x <> c * bs)%nat.
    { intros Heq. rewrite Heq in Hmod.
      by rewrite Nat.Div0.mod_mul in Hmod. }
    nia.
  - by rewrite (batch_loop_raises K x y bs idxs m [] e Hrun).
Qed.

Lemma epoch_rejects_short_last_batch_witness :
  epoch Doubles.echo
    (Slicing.train_x [[1; 2; 4]; [3; 1; 5]; [1; 3; 4]])
    (Slicing.train_y [[1; 2; 4]; [3; 1; 5]; [1; 3; 4]]) 2 3
    (create_rnn Doubles.echo 5 300 500 2 2)
  = Raise ValueError.
Proof.
  apply (epoch_rejects_short_last_batch Doubles.echo
           (Slicing.train_x [[1; 2; 4]; [3; 1; 5]; [1; 3; 4]])
           (Slicing.train_y [[1; 2; 4]; [3; 1; 5]; [1; 3; 4]]) 2
           (create_rnn Doubles.echo 5 300 500 2 2)).
  - reflexivity.
  - lia.
  - vm_compute. lia.
Defined.

Lemma epoch_keeps (K : kernels) (x y : list (list Z)) (bs n : nat)
    (m m' : rnn K) (r : report K) :
  epoch K x y bs n m = Ok (m', r) ->
  batch_size m' = batch_size m
  /\ n_timesteps m' = n_timesteps m
  /\ saved K r = params m'
  /\ ((0 < n)%nat -> states m' = zero_states K (batch_size m')).
Proof.
  unfold epoch.
  destruct (range_step n bs) as [idxs|e] eqn:Hrange; [| done]. simpl.
  destruct (batch_loop K x y bs m idxs []) as [[m1 ls]|e] eqn:Hrun;
    [| done].
  simpl. intros [= <- <-].
  destruct (batch_loop_invariant K x y bs idxs _ _ _ _ Hrun)
    as (Hb & Ht & Hst & _).
  repeat split; try done.
  intros Hn. apply Hst.
  destruct (range_step_length _ _ _ Hrange) as [Hlen Hbs].
  destruct (ceil_div_bounds n bs Hbs) as [Hup _].
  intros ->. simpl in Hlen. rewrite <- Hlen in Hup. simpl in Hup. lia.
Qed.

(** X9. Training for [n_epochs] epochs that raise nothing reports one
    mean loss and saves one set of weights per epoch, in order; the last
    weights saved are the parameters of the model it ends with, whose
    shape is unchanged and whose hidden state, if any mini-batch was
    processed, is zero. *)
Theorem train_reports_every_epoch (K : kernels) (x y : list (list Z))
    (bs n : nat) (n_epochs : nat) :
  forall (m m' : rnn K) (reports0 reports : list (report K)),
    train K x y bs n_epochs n m reports0 = Ok (m', reports) ->
    exists new,
      reports = reports0 ++ new
      /\ length new = n_epochs
      /\ batch_size m' = batch_size m
      /\ n_timesteps m' = n_timesteps m
      /\ (forall r, last new = Some r -> saved K r = params m')
      /\ ((0 < n_epochs)%nat -> (0 < n)%nat ->
          states m' = zero_states K (batch_size m')).
Proof.
  induction n_epochs as [|k IH]; intros m m' reports0 reports Hrun.
  - injection Hrun as <- <-. exists []. rewrite app_nil_r.
    repeat split; try done; lia.
  - simpl in Hrun.
    destruct (epoch K x y bs n m) as [[m1 r1]|e] eqn:Hepoch; [| done].
    simpl in Hrun.
    destruct (epoch_keeps K x y bs n m m1 r1 Hepoch)
      as (Hb1 & Ht1 & Hsaved & Hzero).
    destruct (IH _ _ _ _ Hrun) as (new & -> & Hlen & Hb & Ht & Hlast & Hst).
    exists (r1 :: new). rewrite <- app_assoc. simpl in *.
    split; [done |]. split; [by rewrite Hlen |].
    split; [congruence |]. split; [congruence |]. split.
    + intros r Hr. destruct new as [|r2 new'].
      * simpl in Hr. injection Hr as <-.
        destruct k; [| done]. by injection Hrun as <- _.
      * apply Hlast. exact Hr.
    + intros _ Hn. destruct k as [|k'].
      * injection Hrun as <- _. by apply Hzero.
      * apply Hst; [lia | done].
Qed.

Lemma train_reports_every_epoch_witness :
  exists m' reports,
    train Doubles.echo
      (Slicing.train_x [[1; 2; 4]; [3; 1; 5]])
      (Slicing.train_y [[1; 2; 4]; [3; 1; 5]]) 1 3 2
      (create_rnn Doubles.echo 5 300 500 1 2) []
    = Ok (m', reports)
    /\ length reports = 3%nat.
Proof.
  destruct (train Doubles.echo
              (Slicing.train_x [[1; 2; 4]; [3; 1; 5]])
              (Slicing.train_y [[1; 2; 4]; [3; 1; 5]]) 1 3 2
              (create_rnn Doubles.echo 5 300 500 1 2) [])
    as [[m' reports]|e] eqn:Hrun; [| by vm_compute in Hrun].
  exists m', reports. split; [reflexivity |].
  destruct (train_reports_every_epoch Doubles.echo _ _ _ _ _ _ _ _ _ Hrun)
    as (new & -> & Hlen & _).
  exact Hlen.
Defined.

End PipelineProperties.

(** ** The stateful, masked forward pass (cell 14) *)

Section ForwardProperties.
Import Model Generation.
Variable K : kernels.

Lemma run_row_cons (w : weights K) (st : hid K * hid K) (x : Z)
    (xs : list Z) :
  run_row K w st (x :: xs)
  = ((run_row K w (timestep K w st x) xs).1,
     dense_softmax K w (timestep K w st x).2
       :: (run_row K w (timestep K w st x) xs).2).
Proof. simpl. by destruct (run_row K w (timestep K w st x) xs). Qed.

Lemma run_row_app (w : weights K) (xs ys : list Z) :
  forall st : hid K * hid K,
    run_row K w st (xs ++ ys)
    = ((run_row K w (run_row K w st xs).1 ys).1,
       (run_row K w st xs).2 ++ (run_row K w (run_row K w st xs).1 ys).2).
Proof.
  induction xs as [|x xs IH]; intros st.
  - simpl. by destruct (run_row K w st ys).
  - rewrite <- app_comm_cons, !run_row_cons, IH. done.
Qed.

Lemma run_row_zeros (w : weights K) (st : hid K * hid K) (n : nat) :
  run_row K w st (replicate n 0)
  = (st, replicate n (dense_softmax K w st.2)).
Proof.
  induction n as [|n IH]; [done |].
  change (replicate (S n) 0) with (0 :: replicate n 0).
  rewrite run_row_cons. unfold timestep. simpl. by rewrite IH.
Qed.

Lemma run_row_length (w : weights K) (xs : list Z) :
  forall st : hid K * hid K, length (run_row K w st xs).2 = length xs.
Proof.
  induction xs as [|x xs IH]; intros st; [done |].
  rewrite run_row_cons. simpl. by rewrite IH.
Qed.

(** X11. Left padding leaves the recurrent state alone: a padded row
    takes the network from any state to the state the unpadded sequence
    takes it to, and its outputs after the padding are those of the
    unpadded sequence. *)
Theorem padding_does_not_move_state (w : weights K)
    (st : hid K * hid K) (s : list Z) (W : nat) :
  (length s <= W)%nat ->
  (run_row K w st (Padding.pad_row W s)).1 = (run_row K w st s).1
  /\ drop (W - length s) (run_row K w st (Padding.pad_row W s)).2
     = (run_row K w st s).2.
Proof.
  intros Hle. rewrite (pad_row_fits W s Hle), run_row_app, run_row_zeros.
  simpl. split; [done |].
  rewrite drop_app_length'; [done |]. by rewrite length_replicate.
Qed.

(** X12. A prediction that raises nothing leaves the parameters and the
    compiled shape as they were, keeps one pair of states per row, and
    returns one distribution per position of every row. *)
Theorem predict_on_batch_shapes (m m' : rnn K) (X : list (list Z))
    (out : list (list (list Q))) :
  length (states m) = batch_size m ->
  predict_on_batch K m X = Ok (m', out) ->
  params m' = params m
  /\ batch_size m' = batch_size m
  /\ n_timesteps m' = n_timesteps m
  /\ length (states m') = batch_size m
  /\ length out = batch_size m
  /\ Forall (fun row => length row = n_timesteps m) out.
Proof.
  intros Hst. unfold predict_on_batch.
  destruct (shape_ok K m X) eqn:Hshape; [| done].
  intros [= <- <-]. simpl.
  unfold shape_ok in Hshape. apply andb_true_iff in Hshape as [Hn Hrows].
  apply Nat.eqb_eq in Hn.
  unfold forward. rewrite !length_map, length_zip_with.
  repeat split; try lia.
  apply Forall_fmap, Forall_lookup_2. intros i [st_end outs] Hi. simpl.
  apply lookup_zip_with_Some in Hi as (st & xs & Hrun & _ & Hxs).
  assert (outs = (run_row K (params m) st xs).2) as -> by by rewrite <- Hrun.
  rewrite run_row_length.
  rewrite forallb_forall in Hrows. apply Nat.eqb_eq, Hrows.
  apply list_elem_of_In. by eapply list_elem_of_lookup_2.
Qed.

End ForwardProperties.

Lemma padding_does_not_move_state_witness :
  (Model.run_row Doubles.echo tt (0, 0) (Padding.pad_row 4 [1; 2])).1
  = (Model.run_row Doubles.echo tt (0, 0) [1; 2]).1.
Proof.
  apply (padding_does_not_move_state Doubles.echo tt (0, 0) [1; 2] 4).
  simpl. lia.
Defined.

Lemma predict_on_batch_shapes_witness :
  exists m' out,
    Model.predict_on_batch Doubles.echo (Doubles.loaded Doubles.echo)
                           [[1]] = Ok (m', out)
    /\ length out = 1%nat.
Proof.
  eexists _, _. split; [reflexivity |].
  eapply (predict_on_batch_shapes Doubles.echo
            (Doubles.loaded Doubles.echo) _ [[1]] _); reflexivity.
Defined.

(** ** Reading and sampling (cell 28) *)

Section LoopProperties.
Import Model Generation Ending.
Variable K : kernels.
Variable lexicon : gmap Z string.




Lemma sample_step_keeps (u : Q) (s s' : vars K) :
  single_step K (generation_rnn s) ->
  sample_step K u s = Ok s' ->
  single_step K (generation_rnn s')
  /\ params (generation_rnn s') = params (generation_rnn s)
  /\ exists w, next_word s' = Some w
               /\ generated_ending s' = generated_ending s ++ [w].
Proof.
  intros Hs. unfold sample_step.
  destruct (p_next_word s) as [p|]; [| done].
  destruct (random_choice u p) as [w|e]; [| done]. simpl.
  destruct (predict_word_single K (generation_rnn s) w Hs)
    as (m & h & -> & Hm & Hpar).
  intros [= <-]. simpl. split; [done |]. split; [done |]. by exists w.
Qed.

Lemma continue_false_inv (s : vars K) :
  continue K lexicon s = Ok false ->
  generated_ending s <> []
  /\ exists w, next_word s = Some w /\ ends_sentence lexicon w true.
Proof.
  unfold continue, getitem.
  destruct (generated_ending s) as [|w0 ws]; [done |].
  destruct (next_word s) as [w|]; [| done].
  destruct (lexicon !! w) as [word|] eqn:Hw; [| done]. simpl.
  destruct (last_char word) as [c|e] eqn:Hc; [| done]. simpl.
  intros [= Heos]. split; [done |]. exists w. split; [done |].
  exists word, c. by destruct (is_eos c).
Qed.

Lemma continue_true_inv (s : vars K) :
  continue K lexicon s = Ok true ->
  generated_ending s = []
  \/ exists w, next_word s = Some w /\ ends_sentence lexicon w false.
Proof.
  unfold continue, getitem.
  destruct (generated_ending s) as [|w0 ws]; [by left |].
  destruct (next_word s) as [w|]; [| done].
  destruct (lexicon !! w) as [word|] eqn:Hw; [| done]. simpl.
  destruct (last_char word) as [c|e] eqn:Hc; [| done]. simpl.
  intros [= Heos]. right. exists w. split; [done |].
  exists word, c. by destruct (is_eos c).
Qed.

(** What holds when the [while] exits. *)
Lemma sampling_loop_exit (draws : list Q) :
  forall (s s2 : vars K) (rest : list Q),
    sampling_loop K lexicon draws s = Exited K s2 rest ->
    single_step K (generation_rnn s) ->
    (forall w, last (generated_ending s) = Some w ->
               next_word s = Some w) ->
    (forall i w, (S i < length (generated_ending s))%nat ->
                 generated_ending s !! i = Some w ->
                 ends_sentence lexicon w false) ->
    single_step K (generation_rnn s2)
    /\ params (generation_rnn s2) = params (generation_rnn s)
    /\ (exists used,
          draws = used ++ rest
          /\ length (generated_ending s2)
             = (length (generated_ending s) + length used)%nat)
    /\ (exists w, last (generated_ending s2) = Some w
                  /\ ends_sentence lexicon w true)
    /\ (forall i w, (S i < length (generated_ending s2))%nat ->
                    generated_ending s2 !! i = Some w ->
                    ends_sentence lexicon w false).
Proof.
  induction draws as [|u draws IH]; intros s s2 rest Hrun Hs Hlast Hinit;
    rewrite sampling_loop_unfold in Hrun;
    destruct (continue K lexicon s) as [[|]|e] eqn:Hcont; try done.
  - injection Hrun as <- <-.
    destruct (continue_false_inv s Hcont) as (Hne & w & Hw & Heos).
    split; [done |]. split; [done |]. split; [| split; [| done]].
    + exists []. split; [done | simpl; lia].
    + destruct (last (generated_ending s)) as [w0|] eqn:Hl.
      * exists w0. split; [done |]. rewrite (Hlast w0 eq_refl) in Hw.
        by injection Hw as ->.
      * apply last_None in Hl. done.
  - destruct (sample_step K u s) as [s'|e] eqn:Hstep; [| done].
    destruct (sample_step_keeps u s s' Hs Hstep)
      as (Hs' & Hpar & w & Hnw & Hend).
    destruct (IH s' s2 rest Hrun Hs') as (H1 & H2 & H3 & H4 & H5).
    + intros w'. rewrite Hend, last_snoc. by intros [= <-].
    + intros i wi Hi Hwi. rewrite Hend in Hi, Hwi.
      rewrite length_app in Hi. simpl in Hi.
      rewrite lookup_app_l in Hwi by lia.
      destruct (decide (S i < length (generated_ending s))%nat)
        as [Hlt|Hge]; [by eapply Hinit |].
      assert (Hl : last (generated_ending s) = Some wi).
      { rewrite last_lookup.
        replace (Nat.pred (length (generated_ending s))) with i by lia.
        done. }
      destruct (continue_true_inv s Hcont) as [Hnil | (w0 & Hw0 & Heos)].
      * rewrite Hnil in Hl. done.
      * rewrite (Hlast wi Hl) in Hw0. by injection Hw0 as ->.
    + split; [done |]. split; [congruence |]. split; [| done].
      destruct H3 as (used & -> & Hlen). exists (u :: used).
      split; [done |]. rewrite Hlen, Hend, length_app. simpl. lia.
  - injection Hrun as <- <-.
    destruct (continue_false_inv s Hcont) as (Hne & w & Hw & Heos).
    split; [done |]. split; [done |]. split; [| split; [| done]].
    + exists []. split; [done | simpl; lia].
    + destruct (last (generated_ending s)) as [w0|] eqn:Hl.
      * exists w0. split; [done |]. rewrite (Hlast w0 eq_refl) in Hw.
        by injection Hw as ->.
      * apply last_None in Hl. done.
Qed.

Lemma generate_generated (s s' : vars K) (story ending : list Z)
    (text : string) (draws rest : list Q) :
  generate K lexicon s story draws = Generated K s' ending text rest ->
  exists s1 s2,
    read_story K (begin_story K s) story = Ok s1
    /\ sampling_loop K lexicon draws s1 = Exited K s2 rest
    /\ s' = end_story K s2
    /\ ending = generated_ending s2
    /\ decode lexicon ending = Ok text.
Proof.
  unfold generate.
  destruct (read_story K (begin_story K s) story) as [s1|e] eqn:Hread;
    [| done].
  destruct (sampling_loop K lexicon draws s1) as [s2 r| |] eqn:Hloop;
    try done.
  destruct (decode lexicon (generated_ending s2)) as [t|e] eqn:Hdec;
    [| done].
  intros [= <- <- <- <-]. by exists s1, s2.
Qed.

(** The loop lemma at the start of a story, where nothing has been
    generated yet. *)
Lemma generate_exit (s s' : vars K) (story ending : list Z)
    (text : string) (draws rest : list Q) :
  single_step K (generation_rnn s) ->
  generate K lexicon s story draws = Generated K s' ending text rest ->
  exists s2,
    s' = end_story K s2 /\ ending = generated_ending s2
    /\ single_step K (generation_rnn s2)
    /\ params (generation_rnn s2) = params (generation_rnn s)
    /\ (exists used, draws = used ++ rest
                     /\ length ending = length used)
    /\ (exists w, last ending = Some w /\ ends_sentence lexicon w true)
    /\ (forall i w, (S i < length ending)%nat -> ending !! i = Some w ->
                    ends_sentence lexicon w false).
Proof.
  intros Hs Hgen.
  destruct (generate_generated _ _ _ _ _ _ _ Hgen)
    as (s1 & s2 & Hread & Hloop & -> & -> & _).
  destruct (read_story_keeps K story (begin_story K s) Hs)
    as (s1' & Hread' & Hs1 & Hp1 & _ & He1).
  rewrite Hread in Hread'. injection Hread' as <-.
  simpl in Hp1, He1.
  destruct (sampling_loop_exit draws s1 s2 rest Hloop Hs1)
    as (H1 & H2 & (used & Hused & Hlen) & H4 & H5).
  { rewrite He1. done. }
  { rewrite He1. simpl. lia. }
  exists s2. rewrite He1 in Hlen. simpl in Hlen.
  split; [done |]. split; [done |]. split; [done |].
  split; [congruence |]. split; [by exists used |]. done.
Qed.

(** X14. An iteration that produces an ending hands the next story the
    model it was given with its hidden state reset: same shape, same
    parameters, zero states. *)
Theorem generate_leaves_model_reset (s s' : vars K)
    (story ending : list Z) (text : string) (draws rest : list Q) :
  single_step K (generation_rnn s) ->
  generate K lexicon s story draws = Generated K s' ending text rest ->
  generation_rnn s' = reset_states K (generation_rnn s)
  /\ params (generation_rnn s') = params (generation_rnn s)
  /\ states (generation_rnn s') = zero_states K 1.
Proof.
  intros Hs Hgen.
  destruct (generate_exit _ _ _ _ _ _ _ Hs Hgen)
    as (s2 & -> & _ & Hs2 & Hpar & _).
  destruct Hs as (Hb & Ht & _), Hs2 as (Hb2 & Ht2 & _).
  unfold end_story, reset_states. simpl.
  rewrite Hb, Ht, Hb2, Ht2, Hpar. done.
Qed.

(** X15. An ending that is produced is exactly one sentence: it has at
    least one word, its last word ends in an end-of-sentence marker, and
    none of the words before it does. *)
Theorem ending_is_one_sentence (s s' : vars K)
    (story ending : list Z) (text : string) (draws rest : list Q) :
  single_step K (generation_rnn s) ->
  generate K lexicon s story draws = Generated K s' ending text rest ->
  ending <> []
  /\ (exists w, last ending = Some w /\ ends_sentence lexicon w true)
  /\ (forall i w, (S i < length ending)%nat -> ending !! i = Some w ->
                  ends_sentence lexicon w false).
Proof.
  intros Hs Hgen.
  destruct (generate_exit _ _ _ _ _ _ _ Hs Hgen)
    as (s2 & _ & _ & _ & _ & _ & (w & Hw & Heos) & Hbefore).
  split; [by intros -> |]. split; [by exists w | done].
Qed.

(** X16. Sampling consumes the random source in order, one variate for
    every word of the ending and no more. *)
Theorem one_variate_per_word (s s' : vars K)
    (story ending : list Z) (text : string) (draws rest : list Q) :
  single_step K (generation_rnn s) ->
  generate K lexicon s story draws = Generated K s' ending text rest ->
  exists used, draws = used ++ rest /\ length used = length ending.
Proof.
  intros Hs Hgen.
  destruct (generate_exit _ _ _ _ _ _ _ Hs Hgen)
    as (s2 & _ & _ & _ & _ & (used & Hused & Hlen) & _).
  by exists used.
Qed.

Lemma read_story_agree (story : list Z) :
  forall s s' : vars K,
    generation_rnn s = generation_rnn s' ->
    generated_ending s = generated_ending s' ->
    p_next_word s = p_next_word s' ->
    match read_story K s story, read_story K s' story with
    | Ok a, Ok b =>
        generation_rnn a = generation_rnn b
        /\ p_next_word a = p_next_word b
        /\ generated_ending a = generated_ending s
        /\ generated_ending b = generated_ending s
    | Raise e, Raise e' => e = e'
    | _, _ => False
    end.
Proof.
  induction story as [|x story IH]; intros s s' Hm He Hp; [done |].
  simpl. rewrite <- Hm.
  destruct (predict_word K (generation_rnn s) x) as [[m p]|e]; [| done].
  simpl.
  exact (IH {| generation_rnn := m; p_next_word := Some p;
               next_word := next_word s;
               generated_ending := generated_ending s |}
            {| generation_rnn := m; p_next_word := Some p;
               next_word := next_word s';
               generated_ending := generated_ending s' |}
            eq_refl He eq_refl).
Qed.

Lemma sampling_first_step_agree (u : Q) (draws : list Q) (a b : vars K) :
  generation_rnn a = generation_rnn b ->
  p_next_word a = p_next_word b ->
  generated_ending a = [] ->
  generated_ending b = [] ->
  sampling_loop K lexicon (u :: draws) a
  = sampling_loop K lexicon (u :: draws) b.
Proof.
  intros Hm Hp Ha Hb.
  rewrite !(sampling_loop_unfold K lexicon (u :: draws)).
  rewrite (continue_first K lexicon a Ha), (continue_first K lexicon b Hb).
  unfold sample_step. by rewrite Hm, Hp, Ha, Hb.
Qed.

(** Two states holding the same model start a non-empty story alike. *)
Lemma generate_agree (s s' : vars K) (story : list Z) (draws : list Q) :
  generation_rnn s = generation_rnn s' ->
  story <> [] ->
  draws <> [] ->
  generate K lexicon s story draws = generate K lexicon s' story draws.
Proof.
  intros Hmodel Hstory Hdraws.
  destruct story as [|x story]; [done |].
  destruct draws as [|u draws]; [done |].
  unfold generate, begin_story.
  cbn [read_story generation_rnn p_next_word next_word generated_ending].
  rewrite <- Hmodel.
  destruct (predict_word K (generation_rnn s) x) as [[m p]|e]; [| done].
  cbn [mbind result_bind].
  match goal with
  | |- match read_story K ?a story with _ => _ end
       = match read_story K ?b story with _ => _ end =>
      pose proof (read_story_agree story a b eq_refl eq_refl eq_refl)
        as Hagree;
      destruct (read_story K a story) as [a1|ea];
      destruct (read_story K b story) as [b1|eb]
  end; try done; [| by subst].
  destruct Hagree as (Hm & Hp & Ha & Hb). simpl in Ha, Hb.
  by rewrite (sampling_first_step_agree u draws a1 b1 Hm Hp Ha Hb).
Qed.

(** X17. On a non-empty story, with at least one variate to draw, what
    an iteration does is the same whatever [p_next_word] and [next_word]
    hold from earlier stories: the same as from the state in which
    neither is assigned. *)
Theorem generate_ignores_stale_variables (s : vars K) (story : list Z)
    (draws : list Q) :
  story <> [] ->
  draws <> [] ->
  generate K lexicon s story draws
  = generate K lexicon (initial K (generation_rnn s)) story draws.
Proof.
  intros Hstory Hdraws.
  apply generate_agree; [reflexivity | exact Hstory | exact Hdraws].
Qed.

(** X18. Stories with at least one word are isolated from each other:
    after any story that produced an ending, the next such story gets
    exactly what a first run on the reset model would give it from the
    remaining variates. *)
Theorem nonempty_stories_are_isolated (s s' : vars K)
    (previous ending story : list Z) (text : string)
    (draws rest : list Q) :
  single_step K (generation_rnn s) ->
  generate K lexicon s previous draws = Generated K s' ending text rest ->
  story <> [] ->
  rest <> [] ->
  generate K lexicon s' story rest
  = generate K lexicon
      (initial K (reset_states K (generation_rnn s))) story rest.
Proof.
  intros Hs Hgen Hstory Hrest.
  apply generate_agree; [| exact Hstory | exact Hrest].
  destruct (generate_exit _ _ _ _ _ _ _ Hs Hgen)
    as (s2 & -> & _ & Hs2 & Hpar & _).
  destruct Hs as (Hb & Ht & _), Hs2 as (Hb2 & Ht2 & _).
  unfold end_story, reset_states, initial. simpl.
  by rewrite Hb, Ht, Hb2, Ht2, Hpar.
Qed.

End LoopProperties.


Lemma generate_leaves_model_reset_witness :
  exists s' rest,
    Generation.generate Doubles.echo
      (Generation.lexicon_lookup Doubles.word_index2)
      (Generation.initial Doubles.echo (Doubles.loaded Doubles.echo))
      [4] [1 # 2; 1 # 2; 1 # 2]%Q
    = Generation.Generated Doubles.echo s' [1; 4] "the ." rest
    /\ Model.states (Generation.generation_rnn s')
       = Model.zero_states Doubles.echo 1.
Proof.
  eexists _, _. split; [vm_compute; reflexivity |].
  eapply (generate_leaves_model_reset Doubles.echo
            (Generation.lexicon_lookup Doubles.word_index2)
            (Generation.initial Doubles.echo (Doubles.loaded Doubles.echo))
            _ [4] [1; 4] "the ." [1 # 2; 1 # 2; 1 # 2]%Q [1 # 2]%Q).
  - repeat split.
  - vm_compute. reflexivity.
Defined.

Lemma ending_is_one_sentence_witness :
  exists w, last [1; 4] = Some w
            /\ Ending.ends_sentence
                 (Generation.lexicon_lookup Doubles.word_index2) w true.
Proof.
  eapply (ending_is_one_sentence Doubles.echo
            (Generation.lexicon_lookup Doubles.word_index2)
            (Generation.initial Doubles.echo (Doubles.loaded Doubles.echo))
            _ [4] [1; 4] "the ." [1 # 2; 1 # 2; 1 # 2]%Q [1 # 2]%Q).
  - repeat split.
  - vm_compute. reflexivity.
Defined.

Lemma one_variate_per_word_witness :
  exists used : list Q,
    [1 # 2; 1 # 2; 1 # 2]%Q = used ++ [1 # 2]%Q
    /\ length used = length [1; 4].
Proof.
  eapply (one_variate_per_word Doubles.echo
            (Generation.lexicon_lookup Doubles.word_index2)
            (Generation.initial Doubles.echo (Doubles.loaded Doubles.echo))
            _ [4] [1; 4] "the ." [1 # 2; 1 # 2; 1 # 2]%Q [1 # 2]%Q).
  - repeat split.
  - vm_compute. reflexivity.
Defined.

Lemma generate_ignores_stale_variables_witness :
  Generation.generate Doubles.echo
    (Generation.lexicon_lookup Doubles.word_index2)
    {| Generation.generation_rnn := Doubles.loaded Doubles.echo;
       Generation.p_next_word := Some (Generation.point_mass 6 1);
       Generation.next_word := Some 4;
       Generation.generated_ending := [] |}
    [2] [1 # 2]%Q
  = Generation.generate Doubles.echo
      (Generation.lexicon_lookup Doubles.word_index2)
      (Generation.initial Doubles.echo (Doubles.loaded Doubles.echo))
      [2] [1 # 2]%Q.
Proof.
  apply (generate_ignores_stale_variables Doubles.echo
           (Generation.lexicon_lookup Doubles.word_index2)
           {| Generation.generation_rnn := Doubles.loaded Doubles.echo;
              Generation.p_next_word := Some (Generation.point_mass 6 1);
              Generation.next_word := Some 4;
              Generation.generated_ending := [] |}
           [2] [1 # 2]%Q); discriminate.
Defined.

Lemma nonempty_stories_are_isolated_witness :
  exists s',
    Generation.generate Doubles.echo
      (Generation.lexicon_lookup Doubles.word_index2) s'
      [2] [1 # 2]%Q
    = Generation.generate Doubles.echo
        (Generation.lexicon_lookup Doubles.word_index2)
        (Generation.initial Doubles.echo
           (Model.reset_states Doubles.echo
              (Doubles.loaded Doubles.echo)))
        [2] [1 # 2]%Q.
Proof.
  eexists.
  eapply (nonempty_stories_are_isolated Doubles.echo
            (Generation.lexicon_lookup Doubles.word_index2)
            (Generation.initial Doubles.echo (Doubles.loaded Doubles.echo))
            _ [4] [1; 4] [2] "the ." [1 # 2; 1 # 2; 1 # 2]%Q [1 # 2]%Q).
  - repeat split.
  - vm_compute. reflexivity.
  - discriminate.
  - discriminate.
Defined.



(** ** The sampler (cell 28) *)

Section SamplerProperties.
Import Generation.

Lemma searchsorted_support (p : list Q) :
  forall (c u : Q),
    Forall (fun x => (0 <= x)%Q) p ->
    (c <= u)%Q ->
    (u < c + foldr Qplus 0 p)%Q ->
    exists k q,
      searchsorted c p u = Z.of_nat k /\ p !! k = Some q /\ (0 < q)%Q.
Proof.
  induction p as [|x p IH]; intros c u Hpos Hc Hu; simpl in *.
  - lra.
  - apply Forall_cons_1 in Hpos as [Hx Hpos].
    destruct (Qle_bool (c + x) u) eqn:Hle.
    + apply Qle_bool_iff in Hle.
      destruct (IH (c + x)%Q u Hpos Hle) as (k & q & Hk & Hq & Hq0);
        [lra |].
      exists (S k), q. rewrite Hk. split; [lia | done].
    + exists 0%nat, x. split; [done |]. split; [done |].
      assert (~ (c + x <= u)%Q) as Hnle.
      { intros H. apply Qle_bool_iff in H. congruence. }
      apply Qnot_le_lt in Hnle. lra.
Qed.

(** X20. On a distribution of non-negative probabilities that sum to 1
    the sampler raises nothing and returns an index of the distribution
    whose probability is positive, whatever variate in [0, 1) it
    consumes: an index of probability 0 is never drawn. *)
Theorem random_choice_support (u : Q) (p : list Q) :
  (0 <= u)%Q ->
  (u < 1)%Q ->
  valid_distribution p = true ->
  exists k q,
    random_choice u p = Ok (Z.of_nat k)
    /\ p !! k = Some q /\ (0 < q)%Q.
Proof.
  intros Hu0 Hu1 Hvalid. unfold random_choice. rewrite Hvalid.
  unfold valid_distribution in Hvalid.
  apply andb_true_iff in Hvalid as [Hpos Hsum].
  apply Qeq_bool_iff in Hsum.
  destruct (searchsorted_support p 0%Q u) as (k & q & Hk & Hq & Hq0).
  - apply Forall_forall. intros x Hx.
    rewrite forallb_forall in Hpos.
    apply Qle_bool_iff, Hpos. by apply list_elem_of_In.
  - done.
  - lra.
  - exists k, q. by rewrite Hk.
Qed.

Lemma random_choice_support_witness :
  exists k q,
    random_choice (7 # 10) [1 # 4; 0; 1 # 2; 1 # 4]%Q = Ok (Z.of_nat k)
    /\ [1 # 4; 0; 1 # 2; 1 # 4]%Q !! k = Some q /\ (0 < q)%Q.
Proof.
  apply (random_choice_support (7 # 10) [1 # 4; 0; 1 # 2; 1 # 4]%Q).
  - vm_compute. discriminate.
  - reflexivity.
  - reflexivity.
Defined.

End SamplerProperties.

(** ** The held-out split (cell 22) *)

Section HeldoutProperties.
Import Heldout.

Lemma last_ten_drop {A} (stories : list A) :
  last_ten stories = drop (length stories - 10) stories.
Proof.
  unfold last_ten, Slicing.slice_from, Slicing.slice_bound. simpl.
  f_equal. lia.
Qed.

Lemma final_sentences_ok (stories : list (list string))
    (endings : list string) :
  final_sentences stories = Ok endings <->
  Forall2 (fun story e => last story = Some e) stories endings.
Proof.
  revert endings. induction stories as [|story rest IH]; intros endings;
    simpl.
  - split.
    + intros [= <-]. constructor.
    + by intros ->%Forall2_nil_inv_l.
  - unfold final_sentence at 1.
    destruct (last story) as [e|] eqn:Hlast; simpl.
    + destruct (final_sentences rest) as [es|err] eqn:Hrest; simpl.
      * split.
        -- intros [= <-]. constructor; [done | by apply IH].
        -- intros (e1 & es1 & He & Hes & ->)%Forall2_cons_inv_l.
           apply IH in Hes. congruence.
      * split; [done |].
        intros (e1 & es1 & He & Hes & ->)%Forall2_cons_inv_l.
        apply IH in Hes. congruence.
    + split; [done |].
      intros (e1 & es1 & He & Hes & ->)%Forall2_cons_inv_l. congruence.
Qed.

Lemma final_sentences_raises (stories : list (list string)) (e : exn) :
  final_sentences stories = Raise e <-> e = IndexError /\ [] ∈ stories.
Proof.
  induction stories as [|story rest IH]; simpl.
  - split; [done |]. intros [_ Hin]. by apply elem_of_nil in Hin.
  - unfold final_sentence at 1.
    destruct (last story) as [s|] eqn:Hlast; simpl.
    + assert (story <> []) by (by intros ->).
      destruct (final_sentences rest) as [es|err]; simpl.
      * split; [done |]. intros [-> Hin].
        apply elem_of_cons in Hin as [Heq | Hin]; [done |].
        by assert (Ok es = Raise IndexError) by (by apply IH).
      * rewrite IH, elem_of_cons. split.
        -- intros [-> Hin]. auto.
        -- intros [-> [Heq | Hin]]; [congruence | auto].
    + apply last_None in Hlast as ->. rewrite elem_of_cons.
      split; [intros [= <-]; auto | by intros [-> _]].
Qed.

(** X21. When the split raises nothing it covers the last ten stories
    (all of them when there are fewer), in order, and loses nothing: the
    sentences given for a story followed by its ending are the story. *)
Theorem heldout_split_is_lossless (stories : list (list string))
    (endings texts : list string) :
  split stories = Ok (endings, texts) ->
  length endings = Nat.min 10 (length stories)
  /\ length texts = Nat.min 10 (length stories)
  /\ forall i story,
       drop (length stories - 10) stories !! i = Some story ->
       exists e,
         endings !! i = Some e
         /\ given_sentences story ++ [e] = story
         /\ texts !! i = Some (String.concat " " (given_sentences story)).
Proof.
  unfold split, heldout_endings, heldout_texts.
  destruct (final_sentences (last_ten stories)) as [es|err] eqn:Hes;
    [| done].
  cbn [mbind result_bind]. intros [= <- <-].
  apply final_sentences_ok in Hes. rewrite last_ten_drop in *.
  pose proof (Forall2_length _ _ _ Hes) as Hlen.
  rewrite length_drop in Hlen.
  split; [lia |]. split; [rewrite length_map, length_drop; lia |].
  intros i story Hi.
  destruct (Forall2_lookup_l _ _ _ _ _ Hes Hi) as (e & He & Hlast).
  exists e. split; [done |]. split.
  - apply last_Some in Hlast as [l' ->].
    unfold given_sentences. rewrite slice_to_last, length_app. simpl.
    replace (length l' + 1 - 1)%nat with (length l') by lia.
    by rewrite take_app_length.
  - by rewrite list_lookup_fmap, Hi.
Qed.

Lemma heldout_split_is_lossless_witness :
  exists e,
    ["It rained."; "She ran."]%string !! 1%nat = Some e
    /\ given_sentences ["A."; "B."; "She ran."]%string ++ [e]
       = ["A."; "B."; "She ran."]%string.
Proof.
  destruct (heldout_split_is_lossless
              [["It was hot."; "It rained."];
               ["A."; "B."; "She ran."]]%string
              ["It rained."; "She ran."]%string
              ["It was hot."; "A. B."]%string eq_refl)
    as (_ & _ & Hrows).
  destruct (Hrows 1%nat ["A."; "B."; "She ran."]%string eq_refl)
    as (e & He & Hsplit & _).
  exists e. split; [exact He | exact Hsplit].
Defined.

(** X22. The split raises exactly when one of the last ten stories has no
    sentence at all, and the exception is then [IndexError]. *)
Theorem heldout_split_fails_on_empty_story
    (stories : list (list string)) (e : exn) :
  split stories = Raise e <->
  e = IndexError /\ [] ∈ drop (length stories - 10) stories.
Proof.
  unfold split, heldout_endings. rewrite <- last_ten_drop.
  rewrite <- final_sentences_raises.
  destruct (final_sentences (last_ten stories)); simpl;
    split; congruence.
Qed.

End HeldoutProperties.

(** ** The stop test (cells 24 and 28) *)

Section StopTestProperties.
Import Generation Ending.

Lemma append_last_nonempty (stem : string) (ch : ascii) :
  stem +:+ String ch EmptyString <> EmptyString.
Proof. by destruct stem. Qed.

Lemma last_char_ok (word c : string) :
  last_char word = Ok c <->
  exists stem ch,
    word = stem +:+ String ch EmptyString /\ c = String ch EmptyString.
Proof.
  revert c. induction word as [|a word IH]; intros c.
  - split; [done |]. intros (stem & ch & Heq & _).
    symmetry in Heq. by apply append_last_nonempty in Heq.
  - destruct word as [|b word'].
    + simpl. split.
      * intros [= <-]. by exists EmptyString, a.
      * intros (stem & ch & Heq & ->). destruct stem as [|a' stem'].
        -- simpl in Heq. by injection Heq as ->.
        -- simpl in Heq. injection Heq as _ Heq.
           symmetry in Heq. by apply append_last_nonempty in Heq.
    + change (last_char (String a (String b word')))
        with (last_char (String b word')).
      rewrite IH. split.
      * intros (stem & ch & Heq & ->). exists (String a stem), ch.
        by rewrite Heq.
      * intros (stem & ch & Heq & ->). destruct stem as [|a' stem'].
        -- simpl in Heq. discriminate.
        -- simpl in Heq. injection Heq as _ Heq. by exists stem', ch.
Qed.

(** X23. A word stops the generation exactly when its surface form ends
    in a full stop, a question mark or an exclamation mark, whatever comes
    before that character. *)
Theorem stop_test_reads_last_character (lexicon : gmap Z string) (w : Z) :
  ends_sentence lexicon w true <->
  exists stem ch,
    lexicon !! w = Some (stem +:+ String ch EmptyString)
    /\ (ch = "."%char \/ ch = "?"%char \/ ch = "!"%char).
Proof.
  unfold ends_sentence, is_eos, eos_tokens. split.
  - intros (word & c & Hw & Hc & Heos).
    apply last_char_ok in Hc as (stem & ch & -> & ->).
    exists stem, ch. split; [done |].
    apply bool_decide_eq_true in Heos.
    rewrite !elem_of_cons in Heos.
    destruct Heos as [[= ->] | [[= ->] | [[= ->] | Hnil]]]; auto.
    by apply elem_of_nil in Hnil.
  - intros (stem & ch & Hw & Hch).
    exists (stem +:+ String ch EmptyString), (String ch EmptyString).
    split; [done |]. split.
    + apply last_char_ok. by exists stem, ch.
    + apply bool_decide_eq_true. rewrite !elem_of_cons.
      destruct Hch as [-> | [-> | ->]]; auto.
Qed.

End StopTestProperties.

(** ** The terms of the training loss (cells 14 and 18) *)

Section LossTerms.
Import Padding Slicing Model Terms.

Lemma same_refl (x : float) : same x x.
Proof. destruct x; simpl; [reflexivity | done | done | done]. Qed.

Lemma add_same (a a' b : float) :
  same a a' -> same (Float.add a b) (Float.add a' b).
Proof.
  destruct a, a', b; simpl; try done. intros H. by rewrite H.
Qed.

Lemma add_zero_same (a a' : float) :
  same a a' -> same (Float.add a (Fin 0)) a'.
Proof. destruct a, a'; simpl; try done. intros H. rewrite H. lra. Qed.

Lemma div_count_same (a a' : float) (n : nat) :
  same a a' -> same (Float.div_count a n) (Float.div_count a' n).
Proof.
  destruct a as [q| | |], a' as [q'| | |]; simpl; try done;
    [| by destruct n | by destruct n | by destruct n].
  intros H. destruct n as [|n]; simpl.
  - assert (Qeq_bool q 0 = Qeq_bool q' 0) as ->.
    { destruct (Qeq_bool q' 0) eqn:Hq'.
      - apply Qeq_bool_iff. apply Qeq_bool_iff in Hq'. by rewrite H.
      - apply not_true_is_false. rewrite Qeq_bool_iff. intros Hq.
        rewrite H in Hq. apply Qeq_bool_iff in Hq. congruence. }
    assert (Qle_bool 0 q = Qle_bool 0 q') as ->.
    { destruct (Qle_bool 0 q') eqn:Hq'.
      - apply Qle_bool_iff. apply Qle_bool_iff in Hq'. by rewrite H.
      - apply not_true_is_false. rewrite Qle_bool_iff. intros Hq.
        rewrite H in Hq. apply Qle_bool_iff in Hq. congruence. }
    destruct (Qeq_bool q' 0); [done |]. by destruct (Qle_bool 0 q').
  - by rewrite H.
Qed.

(** Summing the masked scores of a row is summing the scores it keeps. *)
Lemma sum_masked_row (A : list float) :
  forall (B : list bool) (acc acc' : float),
    same acc acc' ->
    Forall (fun s => Float.is_finite s = true) A ->
    same (foldl Float.add acc (zip_with Float.mul_mask A B))
         (foldl Float.add acc'
                ((filter (fun sm => sm.2 = true) (zip A B)).*1)).
Proof.
  induction A as [|a A IH]; intros B acc acc' Hacc Hfin; [done |].
  destruct B as [|b B]; [done |].
  apply Forall_cons_1 in Hfin as [Ha Hfin].
  change (zip (a :: A) (b :: B)) with ((a, b) :: zip A B).
  rewrite filter_cons. simpl. destruct b; simpl.
  - apply IH; [by apply add_same | done].
  - destruct a; try discriminate. simpl.
    apply IH; [by apply add_zero_same | done].
Qed.

Lemma sum_masked_batch (K : kernels) (outs : list (list (list Q))) :
  (forall p y, Float.is_finite (xent K p y) = true) ->
  forall (XY : list (list Z * list Z)) (acc acc' : float),
    same acc acc' ->
    same (foldl Float.add acc
            (concat (zip_with (fun o xy => masked_scores K o xy.1 xy.2)
                              outs XY)))
         (foldl Float.add acc'
            (concat (zip_with (fun o xy => kept_scores K o xy.1 xy.2)
                              outs XY))).
Proof.
  intros Hfin. induction outs as [|o outs IH]; intros XY acc acc' Hacc;
    [done |].
  destruct XY as [|[x y] XY]; [done |].
  simpl. rewrite !foldl_app. apply IH.
  unfold masked_scores, kept_scores. apply sum_masked_row; [done |].
  apply Forall_lookup_2. intros i s Hs.
  apply lookup_zip_with_Some in Hs as (p & yv & -> & _ & _). apply Hfin.
Qed.

Lemma kept_length (A : list float) :
  forall B : list bool,
    length A = length B ->
    length ((filter (fun sm => sm.2 = true) (zip A B)).*1)
    = length (filter (fun b => b = true) B).
Proof.
  induction A as [|a A IH]; intros [|b B] Hlen; try done.
  change (zip (a :: A) (b :: B)) with ((a, b) :: zip A B).
  rewrite !filter_cons. simpl in *.
  destruct b; simpl; rewrite IH by lia; done.
Qed.

Lemma kept_scores_length (K : kernels) (o : list (list Q))
    (x y : list Z) :
  length o = length x ->
  length y = length x ->
  length (kept_scores K o x y) = n_terms x.
Proof.
  intros Ho Hy. unfold kept_scores, n_terms. apply kept_length.
  unfold compute_mask. rewrite length_zip_with, length_map. lia.
Qed.

Lemma batch_terms_length (K : kernels) (outs : list (list (list Q)))
    (X Y : list (list Z)) :
  Forall2 (fun o x => length o = length x) outs X ->
  Forall2 (fun y x => length y = length x) Y X ->
  length (batch_terms K outs X Y) = foldr Nat.add 0%nat (map n_terms X).
Proof.
  intros Ho. revert Y. unfold batch_terms.
  induction Ho as [|o x outs X Hox _ IH]; intros Y HY.
  - by apply Forall2_nil_inv_r in HY as ->.
  - apply Forall2_cons_inv_r in HY as (y & Y' & Hyx & HY' & ->).
    simpl. rewrite length_app, (IH Y' HY').
    by rewrite (kept_scores_length K o x y Hox Hyx).
Qed.

Lemma forward_rows (K : kernels) (w : weights K)
    (sts : list (hid K * hid K)) :
  forall X : list (list Z),
    length sts = length X ->
    Forall2 (fun o x => length o = length x)
            (map snd (forward K w sts X)) X.
Proof.
  unfold forward. induction sts as [|st sts IH]; intros [|x X] Hlen;
    try done; try (by constructor); simpl.
  constructor; [apply run_row_length | apply IH].
  simpl in Hlen. lia.
Qed.

Lemma shape_ok_inv (K : kernels) (m : rnn K) (X : list (list Z)) :
  shape_ok K m X = true ->
  length X = batch_size m
  /\ Forall (fun r => length r = n_timesteps m) X.
Proof.
  unfold shape_ok. intros [Hn Hrows]%andb_true_iff.
  apply Nat.eqb_eq in Hn. split; [done |].
  apply Forall_forall. intros r Hr. rewrite forallb_forall in Hrows.
  apply Nat.eqb_eq, Hrows. by apply list_elem_of_In.
Qed.

Lemma left_padded_row_terms (s : list Z) (W : nat) :
  Forall (fun v => 0 < v) s ->
  (1 <= length s <= W)%nat ->
  n_terms (slice_to (-1) (pad_row W s)) = (length s - 1)%nat
  /\ (forall t,
        slice_from 1 (pad_row W s) !! t = Some 0 ->
        compute_mask (slice_to (-1) (pad_row W s)) !! t = Some false).
Proof.
  intros Hpos [H1 Hle].
  assert (Hx : slice_to (-1) (pad_row W s)
               = replicate (W - length s) 0 ++ take (length s - 1) s).
  { rewrite slice_to_last, (pad_row_fits W s Hle).
    rewrite length_app, length_replicate.
    rewrite take_app_ge by (rewrite length_replicate; lia).
    rewrite length_replicate. do 2 f_equal. lia. }
  split.
  - rewrite Hx, n_terms_app, n_terms_zeros. simpl.
    rewrite n_terms_positive by (by apply Forall_take).
    rewrite length_take. lia.
  - intros t Hy. rewrite compute_mask_lookup.
    rewrite slice_from_first, lookup_drop in Hy. simpl in Hy.
    assert (Ht : (S t < W)%nat).
    { apply lookup_lt_Some in Hy.
      rewrite (pad_row_fits W s Hle), length_app, length_replicate in Hy.
      lia. }
    apply (pad_row_zero_positions s W (S t) Hpos Hle Ht) in Hy.
    rewrite Hx, lookup_app_l by (rewrite length_replicate; lia).
    rewrite lookup_replicate_2 by lia. done.
Qed.

(** C2, as stated, fails on the training step.  With a per-position loss
    equal to the target id: the batch of the one row [0; 0; 5], which has
    one real token, gets the loss 0/0, no term contributing (one term
    would give 5); and the batch of the one row [0; 3; 5], whose two
    targets 3 and 5 are both non-zero, gets the loss 5, the term of the
    target 3 being excluded (both terms would give 4). *)
Lemma single_token_row_contributes_nothing :
  let K := Doubles.graded in
  let m := create_rnn K 5 300 500 1 2 in
  pad_row 3 [5] = [0; 0; 5]
  /\ (exists m',
        train_on_batch K m (train_x [pad_row 3 [5]])
                       (train_y [pad_row 3 [5]]) = Ok (m', NaN))
  /\ n_terms (slice_to (-1) (pad_row 3 [5])) <> 1%nat
  /\ train_y [pad_row 3 [3; 5]] = [[3; 5]]
  /\ (exists m' loss,
        train_on_batch K m (train_x [pad_row 3 [3; 5]])
                       (train_y [pad_row 3 [3; 5]]) = Ok (m', loss)
        /\ same loss (Fin 5) /\ ~ same loss (Fin 4)).
Proof.
  intros K m. split; [reflexivity |].
  split; [eexists; vm_compute; reflexivity |].
  split; [vm_compute; congruence |].
  split; [reflexivity |].
  eexists _, _. split; [vm_compute; reflexivity |].
  split; vm_compute; congruence.
Qed.

(** C2, amended. The loss a training step returns is the mean of the
    per-position cross-entropies, taken as finite, over exactly the
    positions whose input id is not 0: the number of its terms is the
    number of non-zero input ids of the batch, and a position is excluded
    exactly when its input id is 0.  For a row left-padded from [L >= 1]
    positive ids, with input and target cut from it as in cell 12, that
    keeps [L - 1] terms: every position whose target is 0 is excluded,
    and so is the one whose target is the first real token; a left-padded
    row with one real token contributes no term, whatever its width. *)
Theorem masked_terms_follow_input (K : kernels) (m m' : rnn K)
    (X Y : list (list Z)) (loss : float) :
  (forall p y, Float.is_finite (xent K p y) = true) ->
  length (states m) = batch_size m ->
  train_on_batch K m X Y = Ok (m', loss) ->
  let outs := map snd (forward K (params m) (states m) X) in
  same loss (Float.mean (batch_terms K outs X Y))
  /\ length (batch_terms K outs X Y)
     = foldr Nat.add 0%nat (map n_terms X)
  /\ (forall b x t,
        X !! b = Some x ->
        compute_mask x !! t = Some false <-> x !! t = Some 0)
  /\ (forall b s W,
        Forall (fun v => 0 < v) s ->
        (1 <= length s <= W)%nat ->
        X !! b = Some (slice_to (-1) (pad_row W s)) ->
        Y !! b = Some (slice_from 1 (pad_row W s)) ->
        exists o,
          outs !! b = Some o
          /\ length (kept_scores K o (slice_to (-1) (pad_row W s))
                                 (slice_from 1 (pad_row W s)))
             = (length s - 1)%nat
          /\ (forall t,
                slice_from 1 (pad_row W s) !! t = Some 0 ->
                compute_mask (slice_to (-1) (pad_row W s)) !! t
                = Some false)).
Proof.
  intros Hfin Hst Hstep outs.
  unfold train_on_batch in Hstep.
  destruct (shape_ok K m X) eqn:HX; [| done].
  destruct (shape_ok K m Y) eqn:HY; [| done].
  simpl in Hstep. injection Hstep as _ <-.
  destruct (shape_ok_inv K m X HX) as [HXn HXr].
  destruct (shape_ok_inv K m Y HY) as [HYn HYr].
  assert (Ho : Forall2 (fun o x => length o = length x) outs X).
  { apply forward_rows. lia. }
  assert (Hy : Forall2 (fun y x => length y = length x) Y X).
  { apply Forall2_same_length_lookup_2; [lia |].
    intros i y x Hiy Hix.
    rewrite Forall_lookup in HXr, HYr.
    rewrite (HXr _ _ Hix), (HYr _ _ Hiy). done. }
  pose proof (batch_terms_length K outs X Y Ho Hy) as Hlen.
  split; [| split; [exact Hlen | split]].
  - unfold masked_loss, Float.mean. fold outs. rewrite Hlen.
    apply div_count_same. unfold Float.sum, batch_terms.
    apply sum_masked_batch; [done | apply same_refl].
  - intros b x t _. rewrite compute_mask_lookup.
    destruct (x !! t) as [v|]; simpl; [| split; discriminate].
    destruct (Z.eqb_spec v 0); simpl; split; congruence.
  - intros b s W Hpos HL HbX HbY.
    destruct (left_padded_row_terms s W Hpos HL) as [Hn Hzero].
    destruct (Forall2_lookup_r _ _ _ _ _ Ho HbX) as (o & Hbo & Hol).
    destruct (Forall2_lookup_l _ _ _ _ _ Hy HbY) as (x' & HbX' & Hyl).
    rewrite HbX in HbX'. injection HbX' as <-.
    exists o. split; [done |]. split; [| done].
    by rewrite (kept_scores_length K o _ _ Hol Hyl).
Qed.

Lemma masked_terms_follow_input_witness :
  exists m' loss,
    train_on_batch Doubles.graded (create_rnn Doubles.graded 5 300 500 1 2)
      (train_x [pad_row 3 [3; 5]]) (train_y [pad_row 3 [3; 5]])
    = Ok (m', loss)
    /\ same loss
         (Float.mean
            (batch_terms Doubles.graded
               (map snd
                  (forward Doubles.graded tt [(0, 0)]
                           (train_x [pad_row 3 [3; 5]])))
               (train_x [pad_row 3 [3; 5]])
               (train_y [pad_row 3 [3; 5]])))
    /\ batch_terms Doubles.graded
         (map snd
            (forward Doubles.graded tt [(0, 0)]
                     (train_x [pad_row 3 [3; 5]])))
         (train_x [pad_row 3 [3; 5]]) (train_y [pad_row 3 [3; 5]])
       = [Fin 5].
Proof.
  destruct (train_on_batch Doubles.graded
              (create_rnn Doubles.graded 5 300 500 1 2)
              (train_x [pad_row 3 [3; 5]]) (train_y [pad_row 3 [3; 5]]))
    as [[m' loss]|e] eqn:Hstep; [| by vm_compute in Hstep].
  exists m', loss. split; [reflexivity |].
  destruct (masked_terms_follow_input Doubles.graded
              (create_rnn Doubles.graded 5 300 500 1 2) m'
              (train_x [pad_row 3 [3; 5]]) (train_y [pad_row 3 [3; 5]])
              loss)
    as (Hloss & _); [done | reflexivity | exact Hstep |].
  split; [exact Hloss | reflexivity].
Defined.

End LossTerms.
